(** * The configuration store and credential resolver of the pspace CLI

    A shallow embedding of [src/lib/config.ts] (the schema, [read], [write],
    [get], [set], [remove], [clear], [getKeys], [paths]) and of the
    credential resolution prelude of [act] (the [act.ts] part kept in
    [src/commands/signup/mod.ts]), with the properties the specification
    states about them.

    JavaScript values are a first-order datatype, the asynchronous functions
    are run to completion in a state-and-exception monad over a [World] made
    of the two file-system entries the code touches, the credential store,
    the process environment and the log.  The third-party pieces (YAML
    codec, ANSI styling) are fields of a [Host] record; zod and
    object-path-immutable are modelled as far as the code uses them.  The
    modules [credentials.ts], [env.ts], [logger.ts] and [util.ts] are not
    among the sources: what the code calls of them is modelled from the
    specification and marked so. *)

From Stdlib Require Import ZArith String Ascii List Bool Lia DecimalString.
From stdpp Require Import base option list strings gmap.

Set Default Proof Using "Type".
Set Warnings "-register-all".

(** ** JavaScript values *)

Inductive jsval : Type :=
| JUndefined
| JNull
| JBool (b : bool)
| JNum (n : Z)
| JStr (s : string)
| JArr (items : list jsval)
| JObj (props : list (string * jsval)).

Definition nonempty (s : string) : bool :=
  match s with EmptyString => false | String _ _ => true end.

(** [if (v)] on a value. *)
Definition truthy (v : jsval) : bool :=
  match v with
  | JUndefined | JNull => false
  | JBool b => b
  | JNum n => negb (n =? 0)%Z
  | JStr s => nonempty s
  | JArr _ | JObj _ => true
  end.

(** [if (s)] on a [string | undefined]. *)
Definition truthy_str (s : option string) : bool :=
  match s with Some s => nonempty s | None => false end.

(** [o[key]] on a plain object: [undefined] for a missing property. *)
Fixpoint prop (key : string) (props : list (string * jsval)) : jsval :=
  match props with
  | [] => JUndefined
  | (k, v) :: rest => if String.eqb k key then v else prop key rest
  end.

(** [===] on primitives; objects and arrays are compared by reference and a
    freshly parsed one is never identical to a schema literal. *)
Definition strict_eq (a b : jsval) : bool :=
  match a, b with
  | JUndefined, JUndefined | JNull, JNull => true
  | JBool x, JBool y => Bool.eqb x y
  | JNum x, JNum y => (x =? y)%Z
  | JStr x, JStr y => String.eqb x y
  | _, _ => false
  end.

(** Characters that a template literal of the source contains. *)
Definition dq : string := String (ascii_of_nat 34) EmptyString.
Definition nl : string := String (ascii_of_nat 10) EmptyString.

(** ** The world *)

Record File := { content : string; mode : Z }.

Inductive LogEvent :=
| Warning (message : string)
| Info (message : string)
| Critical (message : string).

Record World := {
  config_dir : bool;                        (* does CONFIG_DIR exist *)
  config_file : option File;                (* the file at CONFIG_PATH *)
  credentials : list (string * string);     (* team, secret *)
  environ : gmap string string;
  log : list LogEvent;
}.

Definition set_config_dir (b : bool) (w : World) : World :=
  {| config_dir := b; config_file := config_file w;
     credentials := credentials w; environ := environ w; log := log w |}.
Definition set_config_file (f : option File) (w : World) : World :=
  {| config_dir := config_dir w; config_file := f;
     credentials := credentials w; environ := environ w; log := log w |}.
Definition set_environ (e : gmap string string) (w : World) : World :=
  {| config_dir := config_dir w; config_file := config_file w;
     credentials := credentials w; environ := e; log := log w |}.
Definition add_log (ev : LogEvent) (w : World) : World :=
  {| config_dir := config_dir w; config_file := config_file w;
     credentials := credentials w; environ := environ w;
     log := log w ++ [ev] |}.

(** ** Exceptions and the effect monad *)

Inductive IssueCode := invalid_type | invalid_literal.

Record ZodIssue := { code : IssueCode; path : list string }.

Inductive Exception :=
| NotFound                               (* Deno.errors.NotFound *)
| YAMLError
| ZodError (issues : list ZodIssue)
| ConfigError (message : string)
| TypeError
| Error (message : string).

Inductive Outcome (A : Type) :=
| Return (a : A)
| Throw (e : Exception).
Arguments Return {A} a.
Arguments Throw {A} e.

Definition Eff (A : Type) : Type := World → Outcome A * World.

#[export] Instance Outcome_ret : MRet Outcome := λ A a, Return a.
#[export] Instance Outcome_bind : MBind Outcome := λ A B f m,
  match m with Return a => f a | Throw e => Throw e end.
#[export] Instance Outcome_fmap : FMap Outcome := λ A B f m,
  match m with Return a => Return (f a) | Throw e => Throw e end.

#[export] Instance Eff_ret : MRet Eff := λ A a w, (Return a, w).
#[export] Instance Eff_bind : MBind Eff := λ A B f m w,
  match m w with
  | (Return a, w') => f a w'
  | (Throw e, w') => (Throw e, w')
  end.
#[export] Instance Eff_throw : MThrow Exception Eff := λ A e w, (Throw e, w).

(** [try { body } catch (_err) { handler }]: the effects of [body] up to
    the exception stay. *)
Definition try_catch {A} (body : Eff A) (handler : Exception → Eff A) : Eff A :=
  λ w, match body w with
       | (Return a, w') => (Return a, w')
       | (Throw e, w') => handler e w'
       end.

Definition gets {A} (f : World → A) : Eff A := λ w, (Return (f w), w).
Definition modify (f : World → World) : Eff unit := λ w, (Return tt, f w).

(** ** Zod schemas

    The part of zod 3.20 that the configuration schema and [getKeys] use:
    the node classes, asynchronous parsing with issue collection, and the
    synchronous [isOptional()]. *)

Inductive ZodType : Type :=
| ZodString
| ZodNumber
| ZodAny
| ZodLiteral (value : jsval)
| ZodEffects (schema : ZodType) (transform : jsval → Eff jsval)
| ZodNullable (innerType : ZodType)
| ZodOptional (innerType : ZodType)
| ZodDefault (innerType : ZodType) (defaultValue : jsval)
| ZodObject (shape : list (string * ZodType)).

(** The outcome of [_parse]: the issues raised (none: valid) and the value. *)
Definition ParseReturn : Type := list ZodIssue * jsval.

Definition valid (v : jsval) : ParseReturn := ([], v).
Definition invalid (c : IssueCode) (at_path : list string) (v : jsval) : ParseReturn :=
  ([ {| code := c; path := at_path |} ], v).

Definition or_default (defaultValue data : jsval) : jsval :=
  match data with JUndefined => defaultValue | _ => data end.

(** [finalObject[key] = value] unless the value is [undefined]. *)
Definition add_pair (key : string) (v : jsval) (o : list (string * jsval)) :=
  match v with JUndefined => o | _ => (key, v) :: o end.

Fixpoint parse (t : ZodType) (at_path : list string) (data : jsval)
  : Eff ParseReturn :=
  match t with
  | ZodString =>
      mret (match data with
            | JStr _ => valid data
            | _ => invalid invalid_type at_path data
            end)
  | ZodNumber =>
      mret (match data with
            | JNum _ => valid data
            | _ => invalid invalid_type at_path data
            end)
  | ZodAny => mret (valid data)
  | ZodLiteral value =>
      mret (if strict_eq data value then valid data
            else invalid invalid_literal at_path data)
  | ZodEffects inner transform =>
      base ← parse inner at_path data;
      match base with
      | ([], v) => result ← transform v; mret (valid result)
      | _ => mret base
      end
  | ZodNullable innerType =>
      match data with
      | JNull => mret (valid JNull)
      | _ => parse innerType at_path data
      end
  | ZodOptional innerType =>
      match data with
      | JUndefined => mret (valid JUndefined)
      | _ => parse innerType at_path data
      end
  | ZodDefault innerType defaultValue =>
      parse innerType at_path (or_default defaultValue data)
  | ZodObject shape =>
      match data with
      | JObj o =>
          (* unknown keys are stripped: only the keys of the shape are read *)
          pairs ← (fix fields (sh : list (string * ZodType))
                     : Eff (list ZodIssue * list (string * jsval)) :=
                     match sh with
                     | [] => mret ([], [])
                     | (key, field) :: rest =>
                         r ← parse field (at_path ++ [key]) (prop key o);
                         rs ← fields rest;
                         mret (r.1 ++ rs.1, add_pair key r.2 rs.2)
                     end) shape;
          mret (pairs.1, JObj pairs.2)
      | _ => mret (invalid invalid_type at_path data)
      end
  end.

(** [schema.parseAsync(data)]: the parsed value, or a [ZodError] carrying
    the issues; an exception thrown by a transform passes through. *)
Definition parseAsync (t : ZodType) (data : jsval) : Eff jsval :=
  r ← parse t [] data;
  match r.1 with
  | [] => mret r.2
  | issues => mthrow (ZodError issues)
  end.

(** [safeParse(data).success], the synchronous parse.  The transforms of
    this code base are [async] functions: reaching one in a synchronous
    parse makes zod throw. *)
Fixpoint safeParse_success (t : ZodType) (data : jsval) : Outcome bool :=
  match t with
  | ZodString => Return (match data with JStr _ => true | _ => false end)
  | ZodNumber => Return (match data with JNum _ => true | _ => false end)
  | ZodAny => Return true
  | ZodLiteral value => Return (strict_eq data value)
  | ZodEffects inner _ =>
      ok ← safeParse_success inner data;
      if ok : bool
      then Throw (Error "Asynchronous transform encountered during synchronous parse operation. Use .parseAsync instead.")
      else Return false
  | ZodNullable innerType =>
      match data with
      | JNull => Return true
      | _ => safeParse_success innerType data
      end
  | ZodOptional innerType =>
      match data with
      | JUndefined => Return true
      | _ => safeParse_success innerType data
      end
  | ZodDefault innerType defaultValue =>
      safeParse_success innerType (or_default defaultValue data)
  | ZodObject shape =>
      match data with
      | JObj o =>
          (fix fields (sh : list (string * ZodType)) : Outcome bool :=
             match sh with
             | [] => Return true
             | (key, field) :: rest =>
                 ok ← safeParse_success field (prop key o);
                 oks ← fields rest;
                 Return (ok && oks)
             end) shape
      | _ => Return false
      end
  end.

Definition isOptional (t : ZodType) : Outcome bool :=
  safeParse_success t JUndefined.

(** [t._def.innerType]: only the three wrapper classes have one. *)
Definition innerType_of (t : ZodType) : option ZodType :=
  match t with
  | ZodNullable i | ZodOptional i | ZodDefault i _ => Some i
  | _ => None
  end.

(** ["shape" in t]. *)
Definition has_shape (t : ZodType) : bool :=
  match t with ZodObject _ => true | _ => false end.

(** ** [getKeys] and [paths] *)

(** [field.isOptional() ? field._def.innerType : field], where the wrapper
    classes are the ones that have an [innerType]. *)
Definition unwrapped (field : ZodType) : ZodType :=
  match field with
  | ZodNullable i | ZodOptional i | ZodDefault i _ => i
  | _ => field
  end.

Fixpoint getKeys (obj : ZodType) : Outcome (list string) :=
  match obj with
  | ZodObject shape =>
      (* Object.keys(obj.shape).map(...).flat() *)
      @concat string <$>
        (fix each (sh : list (string * ZodType)) : Outcome (list (list string)) :=
           match sh with
           | [] => Return []
           | (key, field) :: rest =>
               optional ← isOptional field;
               here ←
                 (match optional, innerType_of field with
                  | true, None =>
                      (* ["shape" in undefined] *)
                      Throw TypeError
                  | _, _ =>
                      let nestedObj := if optional then unwrapped field else field in
                      if has_shape nestedObj
                      then map (λ subKey, key +:+ "." +:+ subKey) <$> getKeys nestedObj
                      else Return [key]
                  end);
               there ← each rest;
               Return (here :: there)
           end) shape
  | _ => Throw TypeError
  end.

(** [getKeys(schema).filter((key) => key !== "version")] *)
Definition paths_of (schema : ZodType) : Outcome (list string) :=
  filter (λ key, negb (String.eqb key "version")) <$> getKeys schema.

(** *** The enumerator as the specification words it *)

(** Depth-first: at an object node the children are visited in order and
    each child's key is put in front of what the child yields; a leaf node
    yields its accumulated chain of keys; the wrappers are looked through.
    [None]: the node is a leaf. *)
Fixpoint leaf_chains (t : ZodType) : option (list (list string)) :=
  match t with
  | ZodObject shape =>
      Some ((fix fields (sh : list (string * ZodType)) : list (list string) :=
               match sh with
               | [] => []
               | (key, field) :: rest =>
                   match leaf_chains field with
                   | Some sub => map (cons key) sub
                   | None => [[key]]
                   end ++ fields rest
               end) shape)
  | ZodNullable i | ZodOptional i | ZodDefault i _ => leaf_chains i
  | _ => None
  end.

(** The keys of a chain joined with ["."]. *)
Definition dotted (chain : list string) : string := String.concat "." chain.

Definition leafy (t : ZodType) : bool :=
  match leaf_chains t with None => true | Some _ => false end.

(** The schemas on which [getKeys] looks through every wrapper that is
    there: a nested object stands bare or directly under one wrapper that
    makes its field optional; a leaf type may be wrapped in any way, as
    long as [isOptional()] of the field returns and a bare leaf type does
    not accept [undefined]. *)
Fixpoint tidy (t : ZodType) : bool :=
  match t with
  | ZodObject shape =>
      (fix all (sh : list (string * ZodType)) : bool :=
         match sh with
         | [] => true
         | (_, field) :: rest => tidy field && all rest
         end) shape
  | ZodNullable i | ZodOptional i | ZodDefault i _ =>
      match isOptional t with
      | Return true =>
          match i with
          | ZodObject _ => tidy i
          | _ => leafy i
          end
      | Return false => leafy i
      | Throw _ => false
      end
  | _ =>
      match isOptional t with
      | Return false => true
      | _ => false
      end
  end.

(** ** Dotted paths ([object-path-immutable])

    [obj.get], [obj.set] and [obj.del] on plain objects.  Arrays and numeric
    segments are left out: no configuration path has one. *)

Fixpoint split_go (sep : ascii) (cur : string) (s : string) : list string :=
  match s with
  | EmptyString => [cur]
  | String c rest =>
      if Ascii.eqb c sep then cur :: split_go sep EmptyString rest
      else split_go sep (cur +:+ String c EmptyString) rest
  end.

(** [s.split(sep)] for a one-character separator. *)
Definition split_on (sep : ascii) (s : string) : list string :=
  split_go sep EmptyString s.

(** [path.split(".")] *)
Definition split_path (p : string) : list string := split_on "."%char p.

Fixpoint set_prop (key : string) (v : jsval) (props : list (string * jsval)) :=
  match props with
  | [] => [(key, v)]
  | (k, old) :: rest =>
      if String.eqb k key then (k, v) :: rest else (k, old) :: set_prop key v rest
  end.

Definition del_prop (key : string) (props : list (string * jsval)) :=
  filter (λ kv, negb (String.eqb kv.1 key)) props.

Fixpoint get_in (keys : list string) (o : jsval) : jsval :=
  match keys with
  | [] => o
  | key :: rest =>
      match o with
      | JObj props => get_in rest (prop key props)
      | _ => JUndefined
      end
  end.

Fixpoint set_in (keys : list string) (v : jsval) (o : jsval) : jsval :=
  match keys with
  | [] => v
  | key :: rest =>
      match o with
      | JObj props =>
          let child := match prop key props with
                       | JUndefined => JObj []
                       | c => c
                       end in
          JObj (set_prop key (set_in rest v child) props)
      | _ => o
      end
  end.

Fixpoint del_in (keys : list string) (o : jsval) : jsval :=
  match keys with
  | [] => o
  | [key] =>
      match o with
      | JObj props => JObj (del_prop key props)
      | _ => o
      end
  | key :: rest =>
      match o with
      | JObj props =>
          match prop key props with
          | JUndefined => o
          | c => JObj (set_prop key (del_in rest c) props)
          end
      | _ => o
      end
  end.

Definition obj_get (o : jsval) (p : string) : jsval := get_in (split_path p) o.
Definition obj_set (o : jsval) (p : string) (v : jsval) : jsval :=
  set_in (split_path p) v o.
Definition obj_del (o : jsval) (p : string) : jsval := del_in (split_path p) o.

(** ** Deno, the logger, the credential store, the environment *)

Inductive FsPath := ConfigDir | ConfigPath.

Definition statSync (p : FsPath) : Eff unit :=
  exists_ ← gets (λ w, match p with
                       | ConfigDir => config_dir w
                       | ConfigPath => bool_decide (is_Some (config_file w))
                       end);
  if exists_ : bool then mret tt else mthrow NotFound.

Definition readTextFile : Eff string :=
  f ← gets config_file;
  match f with
  | Some f => mret (content f)
  | None => mthrow NotFound
  end.

(** [Deno.mkdir(CONFIG_DIR, { recursive: true })] *)
Definition mkdir : Eff unit := modify (set_config_dir true).

(** [Deno.writeTextFile(CONFIG_PATH, data, { mode })]: the directory has to
    be there. *)
Definition writeTextFile (data : string) (mode_ : Z) : Eff unit :=
  dir ← gets config_dir;
  if dir : bool
  then modify (set_config_file (Some {| content := data; mode := mode_ |}))
  else mthrow NotFound.

(** Modelled from the spec: [logger.ts] is not among the sources.  A
    warning, an info line or a critical line is emitted and nothing else
    happens: none of them is fatal. *)
Definition logger_warning (m : string) : Eff unit := modify (add_log (Warning m)).
Definition logger_info (m : string) : Eff unit := modify (add_log (Info m)).
Definition logger_critical (m : string) : Eff unit := modify (add_log (Critical m)).

Fixpoint assoc (key : string) (l : list (string * string)) : option string :=
  match l with
  | [] => None
  | (k, v) :: rest => if String.eqb k key then Some v else assoc key rest
  end.

(** Modelled from the spec: [credentials.ts] is not among the sources.
    [get(team) -> secret or absent]: absent, not an error, when the team has
    no stored credential. *)
Definition credentials_get (team : string) : Eff (option string) :=
  gets (λ w, assoc team (credentials w)).

(** Modelled from the spec: [credentials.ts] is not among the sources.
    [list() -> ordered sequence of team identifiers], without the secrets. *)
Definition credentials_list : Eff (list string) :=
  gets (λ w, (credentials w).*1).

(** Modelled from the spec: [env.ts] is not among the sources.  The process
    environment state under a variable name; an unset variable reads as
    [undefined]. *)
Definition env_get (name : string) : Eff (option string) :=
  gets (λ w, environ w !! name).

(** Modelled from the spec: [env.ts] is not among the sources.  The value is
    written into the process environment for the rest of the invocation;
    there is nothing to write when it is [undefined]. *)
Definition env_set (name : string) (value : option string) : Eff unit :=
  match value with
  | Some v => modify (λ w, set_environ (<[name := v]> (environ w)) w)
  | None => mthrow TypeError
  end.

(** ** The fuzzy matcher *)

(** Modelled from the spec: [util.ts] is not among the sources.  The
    standard edit distance (Levenshtein). *)
Fixpoint levenshtein (s : string) : string → nat :=
  fix against (t : string) : nat :=
    match s, t with
    | EmptyString, _ => String.length t
    | _, EmptyString => String.length s
    | String a s', String b t' =>
        if Ascii.eqb a b then levenshtein s' t'
        else S (Nat.min (levenshtein s' t) (Nat.min (against t') (levenshtein s' t')))
    end.

(** Modelled from the spec: [util.ts] is not among the sources.
    [closest(candidates, input)]: the candidate with the minimum distance,
    absent if there is none; ties broken by first occurrence. *)
Fixpoint closest (candidates : list string) (input : string) : option string :=
  match candidates with
  | [] => None
  | c :: rest =>
      match closest rest input with
      | Some best =>
          if Nat.leb (levenshtein input c) (levenshtein input best)
          then Some c else Some best
      | None => Some c
      end
  end.

(** ** The host: third-party code and the home directory *)

Record Host := {
  HOME : string;                          (* env.get("HOME") at load time *)
  yaml_parse : string → option jsval;     (* [parse]; [None]: it throws *)
  yaml_stringify : jsval → string;        (* [stringify] *)
  bold : string → string;                 (* [colors.bold] *)
}.

Record Options := {
  debug : option bool;
  apiKey : option string;
  apiUrl : option string;
  json : bool;
}.

(** [{ version: 1, team }], the shape of a validated document. *)
Definition config_doc (team : jsval) : jsval :=
  JObj [("version", JNum 1); ("team", team)].

(** The file that [write] leaves for a document. *)
Definition stored (host : Host) (d : jsval) : File :=
  {| content := yaml_stringify host d; mode := 384 |}.

(** A store as the login flow builds it: every entry names a team and
    carries a key (the code tests both with [if (...)], which an empty
    string fails). *)
Definition wf_store (store : list (string * string)) : bool :=
  forallb (λ entry, nonempty entry.1 && nonempty entry.2) store.

(** [needle] occurs in [text]. *)
Definition contains (text needle : string) : Prop :=
  ∃ before after, text = before +:+ needle +:+ after.

(** The team of a validated document: [null], or a string for which
    [credentials.get] returned a value. *)
Definition team_ok (store : list (string * string)) (team : jsval) : Prop :=
  team = JNull ∨ ∃ t secret, team = JStr t ∧ assoc t store = Some secret.

Definition valid_doc (store : list (string * string)) (d : jsval) : Prop :=
  ∃ team, d = config_doc team ∧ team_ok store team.

(** From [w] to [w'] the config file either stayed as it was or received a
    valid document. *)
Definition persists_valid (host : Host) (w w' : World) : Prop :=
  config_file w' = config_file w
  ∨ ∃ d, valid_doc (credentials w) d ∧ config_file w' = Some (stored host d).

Section Config.
Context (host : Host).

Definition CONFIG_DIR : string := HOME host +:+ "/.paperspace".
Definition CONFIG_PATH : string := CONFIG_DIR +:+ "/config.yml".

(** *** [config.ts]: the schema *)

Definition not_found_message (value didYouMean : string) : string :=
  "A team named " +:+ dq +:+ value +:+ dq
  +:+ " was not found in your credentials file. " +:+ didYouMean +:+ nl
  +:+ "Are you logged in? Try running " +:+ dq +:+ bold host "pspace login" +:+ dq
  +:+ " first.".

Definition retaining_message (value : string) : string :=
  "Team " +:+ dq +:+ value +:+ dq
  +:+ " was not found in your credentials file. Retaining current team.".

Definition did_you_mean (didYouMeanValue : option string) : string :=
  if truthy_str didYouMeanValue
  then nl +:+ nl +:+ "Did you mean " +:+ bold host (default EmptyString didYouMeanValue) +:+ "?"
  else EmptyString.

Definition team_transform (data : jsval) : Eff jsval :=
  match data with
  | JStr value =>
      secret ← credentials_get value;
      if truthy_str secret then mret (JStr value)
      else
        teams ← credentials_list;
        logger_critical (retaining_message value);;
        let didYouMeanValue := closest teams value in
        let didYouMean := did_you_mean didYouMeanValue in
        mthrow (ConfigError (not_found_message value didYouMean))
  | _ => mthrow TypeError      (* behind [z.string()]: not reached *)
  end.

Definition schema : ZodType :=
  ZodObject
    [ ("version", ZodDefault (ZodLiteral (JNum 1)) (JNum 1));
      ("team",
        ZodDefault (ZodNullable (ZodEffects ZodString team_transform)) JNull) ].

(** [{ team: null }] *)
Definition team_null : jsval := JObj [("team", JNull)].

(** *** [config.ts]: the store *)

Definition write (config : jsval) : Eff unit :=
  try_catch (statSync ConfigDir)
    (λ _err,
      logger_warning
        ("No config directory found. Creating one: " +:+ dq +:+ CONFIG_DIR +:+ dq +:+ ".");;
      mkdir);;
  config ← parseAsync schema config;
  logger_info ("Writing config: " +:+ dq +:+ CONFIG_PATH +:+ dq +:+ ".");;
  writeTextFile (yaml_stringify host config) 384.

Definition read : Eff jsval :=
  found ← try_catch (statSync ConfigPath;; mret true) (λ _err, mret false);
  if found : bool
  then
    try_catch
      (text ← readTextFile;
       config ← match yaml_parse host text with
                | Some config => mret config
                | None => mthrow YAMLError
                end;
       parseAsync schema config)
      (λ _err,
        logger_warning
          ("Config file at " +:+ dq +:+ CONFIG_PATH +:+ dq
           +:+ " is invalid. Using defaults.");;
        nextConfig ← parseAsync schema team_null;
        write nextConfig;;
        mret nextConfig)
  else
    (* the handler of the first [try] returns from [read] *)
    logger_warning
      ("No config file found at " +:+ dq +:+ CONFIG_PATH +:+ dq +:+ ".");;
    parseAsync schema team_null.

Definition get (p : string) : Eff jsval :=
  config ← read;
  mret (obj_get config p).

Definition set (p : string) (value : jsval) : Eff unit :=
  config ← read;
  write (obj_set config p value).

Definition remove (p : string) : Eff unit :=
  config ← read;
  write (obj_del config p).

Definition clear : Eff unit :=
  config ← parseAsync schema team_null;
  write config.

Definition paths : Outcome (list string) := paths_of schema.

(** [p] is one of the [paths]. *)
Definition enumerated (p : string) : Prop :=
  ∃ ps, paths = Return ps ∧ p ∈ ps.

(** The constraint that the schema puts on the leaf at [p]: the one leaf
    is [team], [null] or a team of the credential store. *)
Definition leaf_constraint (store : list (string * string)) (p : string)
    (value : jsval) : Prop :=
  p = "team" ∧ team_ok store value.

(** *** [act.ts]: the prelude of every action *)

Definition bool_string (b : bool) : string := if b then "true" else "false".

Definition resolve (opt : Options) : Eff unit :=
  match debug opt with
  | Some d => env_set "DEBUG" (Some (bool_string d))
  | None => mret tt
  end;;
  (if truthy_str (apiKey opt)
   then env_set "PAPERSPACE_API_KEY" (apiKey opt)
   else mret tt);;
  (if truthy_str (apiUrl opt)
   then env_set "PAPERSPACE_API_URL" (apiUrl opt)
   else mret tt);;
  key ← env_get "PAPERSPACE_API_KEY";
  if truthy_str key then mret tt
  else
    team ← get "team";
    if truthy team
    then
      match team with
      | JStr t => secret ← credentials_get t; env_set "PAPERSPACE_API_KEY" secret
      | _ => mthrow TypeError    (* a validated team is a string or null *)
      end
    else mret tt.

(** [act(fn)]: resolve, then run the action (printing its result is the
    dispatcher's business). *)
Definition act {A} (fn : Options → Eff A) (opt : Options) : Eff A :=
  resolve opt;;
  fn opt.

End Config.

(** ** The resolver as the specification words it *)

(** The first source that yields a non-empty value wins. *)
Fixpoint first_nonempty (sources : list (option string)) : option string :=
  match sources with
  | [] => None
  | source :: rest =>
      if truthy_str source then source else first_nonempty rest
  end.

(** The third source: [ConfigStore.get("team")], and if that is non-null,
    [CredentialStore.get(team)]. *)
Definition team_credential (host : Host) (w : World) : option string :=
  match (get host "team" w).1 with
  | Return (JStr t) => assoc t (credentials w)
  | _ => None
  end.

Definition spec_resolver (host : Host) (opt : Options) (w : World)
  : option string :=
  first_nonempty
    [ apiKey opt; environ w !! "PAPERSPACE_API_KEY"; team_credential host w ].

(** The credential that the rest of the invocation finds in the
    environment. *)
Definition effective (w : World) : option string :=
  first_nonempty [ environ w !! "PAPERSPACE_API_KEY" ].

(** The config store shows no trace of having been consulted: directory,
    file, credentials and log are what they were. *)
Definition config_untouched (w w' : World) : Prop :=
  config_dir w' = config_dir w
  ∧ config_file w' = config_file w
  ∧ credentials w' = credentials w
  ∧ log w' = log w.

(** The config file of [w] is there and passes the schema. *)
Definition file_valid (host : Host) (w : World) : Prop :=
  ∃ f config d,
    config_file w = Some f
    ∧ yaml_parse host (content f) = Some config
    ∧ (parseAsync (schema host) config w).1 = Return d.

(** ** The credential store's mutations *)

Definition set_credentials (store : list (string * string)) (w : World) : World :=
  {| config_dir := config_dir w; config_file := config_file w;
     credentials := store; environ := environ w; log := log w |}.

Fixpoint upsert (team secret : string) (store : list (string * string))
  : list (string * string) :=
  match store with
  | [] => [(team, secret)]
  | (k, v) :: rest =>
      if String.eqb k team then (k, secret) :: rest
      else (k, v) :: upsert team secret rest
  end.

Fixpoint without (team : string) (store : list (string * string))
  : list (string * string) :=
  match store with
  | [] => []
  | (k, v) :: rest =>
      if String.eqb k team then without team rest
      else (k, v) :: without team rest
  end.

(** Modelled from the spec: [credentials.ts] is not among the sources.
    [set(team, secret) -> void]: upserts; overwrites silently if the team
    already exists. *)
Definition credentials_set (team secret : string) : Eff unit :=
  modify (λ w, set_credentials (upsert team secret (credentials w)) w).

(** Modelled from the spec: [credentials.ts] is not among the sources.
    [remove(team) -> void]: no-op if absent. *)
Definition credentials_remove (team : string) : Eff unit :=
  modify (λ w, set_credentials (without team (credentials w)) w).

(** Modelled from the spec: [credentials.ts] is not among the sources.
    [clear() -> void]: removes all entries. *)
Definition credentials_clear : Eff unit := modify (set_credentials []).

(** ** [cli.ts]: the commands that use the config store

    The functions handed to [act] by [login], [logout] and [config set].
    What comes from outside the program is an argument: the answer typed
    at a prompt, and for [login] the team namespace that the API reports
    for a key ([None]: no viewer or no team). *)

(** The third-party pieces these commands use: [warn] of [ansi.ts]
    ([colors.bold.yellow]) and the message zod attaches to an issue. *)
Record Terminal := {
  warn : string → string;
  issue_message : ZodIssue → string;
}.

Section Commands.
Context (host : Host) (term : Terminal).

(** [login]: [cli.ts], the action of the [login] command. *)
Definition login_action (viewer_team : string → option string)
    (typed : string) (apiKey : option string) : Eff string :=
  (* if (!apiKey) { open(...); apiKey = await Secret.prompt(...) } *)
  let apiKey := if truthy_str apiKey then default EmptyString apiKey else typed in
  (* const team = viewer?.team?.namespace *)
  let team := viewer_team apiKey in
  if truthy_str team
  then
    let team := default EmptyString team in
    credentials_set team apiKey;;
    set host "team" (JStr team);;
    mret ("Logged in to team " +:+ dq +:+ bold host team +:+ dq)
  else
    (* cliffy's ValidationError, an Error *)
    mthrow (Error "Invalid API key.").

(** [logout]: [cli.ts], the action of the [logout] command. *)
Definition logout_action (all : bool) (team : option string) : Eff string :=
  if all
  then
    set host "team" JNull;;
    credentials_clear;;
    mret "Logged out of all teams"
  else
    currentTeam ← get host "team";
    if truthy_str team
    then
      let team := default EmptyString team in
      (if strict_eq (JStr team) currentTeam
       then set host "team" JNull
       else mret tt);;
      credentials_remove team;;
      mret ("Logged out of team " +:+ dq +:+ bold host team +:+ dq)
    else
      if truthy currentTeam
      then
        match currentTeam with
        | JStr current =>
            set host "team" JNull;;
            credentials_remove current;;
            mret ("Logged out of team " +:+ dq +:+ bold host current +:+ dq)
        | _ => mthrow TypeError   (* a validated team is a string or null *)
        end
      else mret EmptyString.

(** [config set]: [cli.ts], the action of the [config set] command.
    [picked] and [typed] are the answers to the two prompts, asked only
    when the argument is missing. *)
Definition config_set_action (picked typed : string)
    (key value : option string) : Eff jsval :=
  let key := if truthy_str key then default EmptyString key else picked in
  value ←
    (if truthy_str value then mret (default EmptyString value)
     else
       (* suggestions: key === "team" ? await credentials.list() : [] *)
       _suggestions ← (if String.eqb key "team" then credentials_list
                       else mret []);
       mret typed);
  try_catch (set host key (JStr value))
    (λ err,
      match err with
      | ZodError issues =>
          match issues with
          | first :: _ =>
              mthrow (ConfigError
                        (warn term ("Invalid value for " +:+ dq +:+ key +:+ dq)
                         +:+ nl +:+ issue_message term first))
          | [] => mthrow TypeError
          end
      | _ => mret tt     (* any other error is dropped *)
      end);;
  parsedValue ← get host key;
  mret parsedValue.

(** The three commands as [cli.ts] registers them,
    [.action(act(async (_opt, ...) => { ... }))]: the closure under [act],
    so that the credential resolution runs first.  [all] is the [--all]
    field of the options of [logout]. *)
Definition login_command (viewer_team : string → option string)
    (typed : string) (apiKey : option string) (opt : Options) : Eff string :=
  act host (λ _opt, login_action viewer_team typed apiKey) opt.

Definition logout_command (all : bool) (team : option string) (opt : Options)
  : Eff string :=
  act host (λ _opt, logout_action all team) opt.

Definition config_set_command (picked typed : string)
    (key value : option string) (opt : Options) : Eff jsval :=
  act host (λ _opt, config_set_action picked typed key value) opt.

End Commands.

(** ** A YAML codec for the examples

    The fragment of YAML that [stringify] emits for a configuration
    document: a block mapping of plain or single-quoted scalars, one
    [key: value] line each.  Text outside the fragment is refused, which is
    what the real parser does with the malformed text of the examples. *)

Module FlatYaml.

Definition indicator (c : ascii) : bool :=
  existsb (Ascii.eqb c)
    (list_ascii_of_string ("[]{}&*!|>%@`" +:+ dq)).

Definition unquote (s : string) : option string :=
  match s with
  | String "'" rest =>
      match String.length rest with
      | O => None
      | S n =>
          if String.eqb (String.substring n 1 rest) "'"
          then Some (String.substring 0 n rest) else None
      end
  | _ => None
  end.

Definition parse_scalar (s : string) : option jsval :=
  if String.eqb s EmptyString || String.eqb s "null" || String.eqb s "~"
  then Some JNull
  else if String.eqb s "true" then Some (JBool true)
  else if String.eqb s "false" then Some (JBool false)
  else
    match s with
    | String "'" _ => JStr <$> unquote s
    | String c _ =>
        if indicator c then None
        else
          match NilZero.int_of_string s with
          | Some i => Some (JNum (Z.of_int i))
          | None => Some (JStr s)
          end
    | EmptyString => Some JNull
    end.

Definition stringify_scalar (v : jsval) : string :=
  match v with
  | JUndefined => EmptyString
  | JNull => "null"
  | JBool b => if b then "true" else "false"
  | JNum n => NilZero.string_of_int (Z.to_int n)
  | JStr s =>
      match parse_scalar s with
      | Some (JStr s') => if String.eqb s s' then s else "'" +:+ s +:+ "'"
      | _ => "'" +:+ s +:+ "'"
      end
  | JArr _ => "[]"
  | JObj _ => "{}"
  end.

(** The part of a line before and after the first [": "]. *)
Fixpoint cut_colon (key : string) (line : string) : option (string * string) :=
  match line with
  | String ":" (String " " value) => Some (key, value)
  | String c rest => cut_colon (key +:+ String c EmptyString) rest
  | EmptyString => None
  end.

Definition parse_line (line : string) : option (string * jsval) :=
  kv ← cut_colon EmptyString line;
  v ← parse_scalar kv.2;
  Some (kv.1, v).

Definition parse (text : string) : option jsval :=
  match filter (λ l, nonempty l) (split_on (ascii_of_nat 10) text) with
  | [] => Some JNull
  | lines => JObj <$> mapM parse_line lines
  end.

Definition stringify (v : jsval) : string :=
  match v with
  | JObj props =>
      String.concat EmptyString
        (map (λ kv, kv.1 +:+ ": " +:+ stringify_scalar kv.2 +:+ nl) props)
  | _ => stringify_scalar v +:+ nl
  end.

End FlatYaml.

(** The host of the examples: that codec, and a [bold] that wraps its
    argument in the SGR codes 1 and 22. *)
Definition esc : string := String (ascii_of_nat 27) EmptyString.

Definition example_host : Host :=
  {| HOME := "/home/user";
     yaml_parse := FlatYaml.parse;
     yaml_stringify := FlatYaml.stringify;
     bold := λ s, esc +:+ "[1m" +:+ s +:+ esc +:+ "[22m" |}.

(** A schema with nested objects: one bare, one under [.optional()]. *)
Definition nested_schema : ZodType :=
  ZodObject
    [ ("version", ZodDefault (ZodLiteral (JNum 1)) (JNum 1));
      ("team", ZodDefault (ZodNullable ZodString) JNull);
      ("display",
        ZodOptional
          (ZodObject
             [ ("color", ZodString);
               ("table", ZodObject [("width", ZodDefault ZodNumber (JNum 80))]) ])) ].

(** [z.object({ theme: z.string() }).nullish()]: [.optional().nullable()]. *)
Definition nullish_settings : ZodType :=
  ZodNullable (ZodOptional (ZodObject [("theme", ZodString)])).

Definition nullish_schema : ZodType :=
  ZodObject
    [ ("version", ZodDefault (ZodLiteral (JNum 1)) (JNum 1));
      ("settings", nullish_settings) ].

Definition no_options : Options :=
  {| debug := None; apiKey := None; apiUrl := None; json := false |}.

(** [--api-key key] *)
Definition with_api_key (key : string) : Options :=
  {| debug := None; apiKey := Some key; apiUrl := None; json := false |}.

Definition example_world (dir : bool) (file : option string)
    (store : list (string * string)) (env : list (string * string)) : World :=
  {| config_dir := dir;
     config_file := (λ text, {| content := text; mode := 384 |}) <$> file;
     credentials := store;
     environ := list_to_map env;
     log := [] |}.

(** A config file naming a team, and some worlds around it. *)
Definition team_text (team : string) : string :=
  "version: 1" +:+ nl +:+ "team: " +:+ team +:+ nl.

(** The file names the team [ghost]; the store knows [acme] only. *)
Definition ghost_world : World :=
  example_world true (Some (team_text "ghost")) [("acme", "K3")] [].

(** The file names [acme], which the store knows. *)
Definition acme_world (env : list (string * string)) : World :=
  example_world true (Some (team_text "acme"))
    [("acme", "K3"); ("beta", "K4")] env.

(** No directory, no file. *)
Definition fresh_world : World :=
  example_world false None [("acme", "K3"); ("beta", "K4")] [].

(** An unclosed flow sequence: not YAML. *)
Definition corrupt_world : World :=
  example_world true (Some "team: [") [("acme", "K3")] [].

(** A store whose entry for [acme] holds an empty secret; no config file. *)
Definition blank_secret_world : World :=
  example_world true None [("acme", "")] [].

(** A store whose one entry has the empty string as its team name, and a
    config file that names that team. *)
Definition blank_team_world : World :=
  example_world true (Some (team_text "''")) [("", "K7")] [].

(** A terminal without colours, with zod's messages for the two issues. *)
Definition example_terminal : Terminal :=
  {| warn := λ s, s;
     issue_message := λ issue,
       match code issue with
       | invalid_literal => "Invalid literal value, expected 1"
       | invalid_type => "Expected string, received number"
       end |}.

(** An API that knows one key, [K9] of the team [gamma]. *)
Definition example_viewer (key : string) : option string :=
  if String.eqb key "K9" then Some "gamma" else None.

(** A shape with a field that is optional without an inner type. *)
Definition any_shape : list (string * ZodType) :=
  [ ("name", ZodString); ("payload", ZodAny) ].

(** A shape with a plain key and a nested object. *)
Definition display_shape : list (string * ZodType) :=
  [ ("team", ZodString); ("display", ZodObject [("color", ZodString)]) ].

(** ** Normal forms

    What the operations compute, as functions of the world and the store.
    The lemmas of the next part show that the code computes them. *)

Definition add_logs (evs : list LogEvent) (w : World) : World :=
  {| config_dir := config_dir w; config_file := config_file w;
     credentials := credentials w; environ := environ w;
     log := log w ++ evs |}.

Definition version_issues (data : jsval) : list ZodIssue :=
  if strict_eq (or_default (JNum 1) data) (JNum 1) then []
  else [ {| code := invalid_literal; path := ["version"] |} ].

Definition checked (issues : list ZodIssue) (v : jsval) : Outcome jsval :=
  match issues with [] => Return v | _ => Throw (ZodError issues) end.

Section NormalForms.
Context (host : Host).

(** What [schema.parseAsync] answers, as a function of the store. *)
Definition schema_result (store : list (string * string)) (data : jsval)
  : Outcome jsval :=
  match data with
  | JObj o =>
      match or_default JNull (prop "team" o) with
      | JNull => checked (version_issues (prop "version" o)) (config_doc JNull)
      | JStr t =>
          if truthy_str (assoc t store)
          then checked (version_issues (prop "version" o)) (config_doc (JStr t))
          else Throw (ConfigError
                 (not_found_message host t (did_you_mean host (closest store.*1 t))))
      | _ =>
          Throw (ZodError (version_issues (prop "version" o)
                           ++ [ {| code := invalid_type; path := ["team"] |} ]))
      end
  | _ => Throw (ZodError [ {| code := invalid_type; path := [] |} ])
  end.

(** ... and what it logs. *)
Definition schema_log (store : list (string * string)) (data : jsval)
  : list LogEvent :=
  match data with
  | JObj o =>
      match or_default JNull (prop "team" o) with
      | JStr t =>
          if truthy_str (assoc t store) then []
          else [Critical (retaining_message t)]
      | _ => []
      end
  | _ => []
  end.

(** The world after the first [try] of [write]. *)
Definition ensure_dir (w : World) : World :=
  if config_dir w then w
  else set_config_dir true
         (add_log (Warning ("No config directory found. Creating one: "
                            +:+ dq +:+ CONFIG_DIR host +:+ dq +:+ ".")) w).

(** The world after [write] has stored the validated document [d]. *)
Definition written (d : jsval) (w : World) : World :=
  set_config_file (Some (stored host d))
    (add_log (Info ("Writing config: " +:+ dq +:+ CONFIG_PATH host +:+ dq +:+ "."))
       w).

(** The world after the second handler of [read]: warn, then write the
    defaults. *)
Definition recovered (w : World) : World :=
  written (config_doc JNull)
    (ensure_dir
       (add_log (Warning ("Config file at " +:+ dq +:+ CONFIG_PATH host +:+ dq
                          +:+ " is invalid. Using defaults.")) w)).

Definition missing_warned (w : World) : World :=
  add_log (Warning ("No config file found at " +:+ dq +:+ CONFIG_PATH host
                    +:+ dq +:+ ".")) w.

End NormalForms.

(** The environment after the three option checks of [resolve]. *)
Definition flagged (opt : Options) (e : gmap string string) : gmap string string :=
  let e1 := match debug opt with
            | Some d => <["DEBUG" := bool_string d]> e
            | None => e
            end in
  let e2 := if truthy_str (apiKey opt)
            then <["PAPERSPACE_API_KEY" := default EmptyString (apiKey opt)]> e1
            else e1 in
  if truthy_str (apiUrl opt)
  then <["PAPERSPACE_API_URL" := default EmptyString (apiUrl opt)]> e2
  else e2.

(** What [getKeys] yields for one key of a shape. *)
Definition field_keys (key : string) (field : ZodType) : Outcome (list string) :=
  optional ← isOptional field;
  match optional, innerType_of field with
  | true, None => Throw TypeError
  | _, _ =>
      let nestedObj := if optional then unwrapped field else field in
      if has_shape nestedObj
      then map (λ subKey, key +:+ "." +:+ subKey) <$> getKeys nestedObj
      else Return [key]
  end.

Definition field_chains (key : string) (field : ZodType) : list (list string) :=
  match leaf_chains field with
  | Some sub => map (cons key) sub
  | None => [[key]]
  end.

Definition object_chains (shape : list (string * ZodType)) : list (list string) :=
  default [] (leaf_chains (ZodObject shape)).

(** * Properties *)

(** ** Running the monad *)

Ltac run :=
  repeat (cbv [mbind mret mthrow Eff_bind Eff_ret Eff_throw gets modify
               try_catch credentials_get credentials_list env_get
               logger_warning logger_info logger_critical
               statSync readTextFile mkdir writeTextFile];
          cbn).

#[global] Arguments parseAsync : simpl never.
#[global] Arguments write : simpl never.
#[global] Arguments read : simpl never.

Lemma add_logs_nil w : add_logs [] w = w.
Proof. destruct w; unfold add_logs; simpl. by rewrite app_nil_r. Qed.

Lemma strict_eq_num_1 v : strict_eq v (JNum 1) = true → v = JNum 1.
Proof.
  destruct v; simpl; try discriminate.
  intros H. apply Z.eqb_eq in H. by subst.
Qed.

Section Facts.
Context (host : Host).

Lemma parseAsync_schema data w :
  parseAsync (schema host) data w
  = (schema_result host (credentials w) data,
     add_logs (schema_log (credentials w) data) w).
Proof.
  destruct data as [| | | | |?|o]; try (run; by rewrite add_logs_nil).
  unfold parseAsync, schema_result, schema_log, schema, checked, version_issues.
  run.
  destruct (strict_eq (or_default (JNum 1) (prop "version" o)) (JNum 1)) eqn:Hv;
    [apply strict_eq_num_1 in Hv; rewrite Hv |];
    destruct (prop "team" o) eqn:Ht; run; rewrite ?add_logs_nil; try done.
  all: destruct (truthy_str _); run; rewrite ?add_logs_nil; done.
Qed.

Lemma schema_result_ok store data d :
  schema_result host store data = Return d → schema_log store data = [].
Proof.
  destruct data as [| | | | |?|o]; try discriminate.
  unfold schema_result, schema_log.
  destruct (or_default JNull (prop "team" o)); try done.
  by destruct (truthy_str _).
Qed.

Lemma write_unfold config w :
  write host config w
  = let w1 := add_logs (schema_log (credentials w) config) (ensure_dir host w) in
    match schema_result host (credentials w) config with
    | Return d => (Return tt, written host d w1)
    | Throw e => (Throw e, w1)
    end.
Proof.
  unfold write, ensure_dir. run.
  destruct (config_dir w) eqn:Hd; run.
  all: rewrite parseAsync_schema; cbn.
  all: destruct (schema_result host (credentials w) config) eqn:Hr; cbn; try done.
  all: rewrite ?Hd; done.
Qed.

Lemma read_unfold w :
  read host w
  = match config_file w with
    | None => (Return (config_doc JNull), missing_warned host w)
    | Some f =>
        match yaml_parse host (content f) with
        | None => (Return (config_doc JNull), recovered host w)
        | Some config =>
            match schema_result host (credentials w) config with
            | Return d => (Return d, w)
            | Throw _ =>
                (Return (config_doc JNull),
                 recovered host (add_logs (schema_log (credentials w) config) w))
            end
        end
    end.
Proof.
  unfold read. run.
  destruct (config_file w) as [f|] eqn:Hf; run; rewrite ?Hf; run.
  2: { rewrite parseAsync_schema. by rewrite add_logs_nil. }
  destruct (yaml_parse host (content f)) as [config|]; run.
  - rewrite parseAsync_schema.
    destruct (schema_result host (credentials w) config) eqn:Hr; cbn.
    + by rewrite (schema_result_ok _ _ _ Hr), add_logs_nil.
    + rewrite parseAsync_schema. cbn. rewrite add_logs_nil.
      rewrite write_unfold. cbn. by rewrite add_logs_nil.
  - rewrite parseAsync_schema. cbn. rewrite add_logs_nil.
    rewrite write_unfold. cbn. by rewrite add_logs_nil.
Qed.

Lemma config_file_ensure_dir w : config_file (ensure_dir host w) = config_file w.
Proof. unfold ensure_dir. by destruct (config_dir w). Qed.

Lemma config_dir_ensure_dir w : config_dir (ensure_dir host w) = true.
Proof. unfold ensure_dir. by destruct (config_dir w) eqn:E. Qed.

Lemma credentials_ensure_dir w : credentials (ensure_dir host w) = credentials w.
Proof. unfold ensure_dir. by destruct (config_dir w). Qed.

Lemma environ_ensure_dir w : environ (ensure_dir host w) = environ w.
Proof. unfold ensure_dir. by destruct (config_dir w). Qed.

(** [read] always returns a document. *)
Lemma read_total w : ∃ d w', read host w = (Return d, w').
Proof.
  rewrite read_unfold.
  destruct (config_file w) as [f|]; [|by eauto].
  destruct (yaml_parse host (content f)) as [config|]; [|by eauto].
  destruct (schema_result host (credentials w) config); by eauto.
Qed.

(** ** Missing and corrupt files *)

(** C2.  Without a config file [read] returns the defaults
    [{version: 1, team: null}] and creates nothing: there is still no file
    and the directory is as it was.  With a file that is not YAML [read]
    returns the defaults and the file holds the serialized defaults
    afterwards.  [read] throws in neither case. *)
Theorem read_missing_or_corrupt (w : World) :
  (config_file w = None →
   ∃ w', read host w = (Return (config_doc JNull), w')
         ∧ config_file w' = None
         ∧ config_dir w' = config_dir w)
  ∧ (∀ f, config_file w = Some f →
          yaml_parse host (content f) = None →
          ∃ w', read host w = (Return (config_doc JNull), w')
                ∧ config_file w' = Some (stored host (config_doc JNull))).
Proof.
  split.
  - intros Hf. rewrite read_unfold, Hf.
    exists (missing_warned host w). by rewrite <- Hf.
  - intros f Hf Hy. rewrite read_unfold, Hf, Hy.
    by exists (recovered host w).
Qed.

(** ** Schema-invalid files *)

(** C1, as the code has it.  A file that parses as YAML and fails the
    schema (an unknown team, say) is treated like a corrupt one: the second
    [try] of [read] encloses [schema.parseAsync], so the error is caught,
    the defaults are returned and they replace the file.  No [ConfigError]
    reaches the caller. *)
Theorem read_recovers_from_invalid_document
    (w : World) (f : File) (config : jsval) (e : Exception) :
  config_file w = Some f →
  yaml_parse host (content f) = Some config →
  (parseAsync (schema host) config w).1 = Throw e →
  ∃ w', read host w = (Return (config_doc JNull), w')
        ∧ config_file w' = Some (stored host (config_doc JNull)).
Proof.
  intros Hf Hy He. rewrite parseAsync_schema in He. cbn in He.
  rewrite read_unfold, Hf, Hy, He. eauto.
Qed.

(** ** Validation before writing *)

Lemma schema_result_valid store data d :
  schema_result host store data = Return d →
  ∃ team, d = config_doc team
          ∧ (team = JNull
             ∨ ∃ t, team = JStr t ∧ truthy_str (assoc t store) = true).
Proof.
  destruct data as [| | | | |?|o]; try discriminate.
  unfold schema_result, checked.
  destruct (or_default JNull (prop "team" o)) as [| | | |t| |]; try discriminate.
  - destruct (version_issues _); [|discriminate].
    intros [= <-]. eauto.
  - destruct (truthy_str (assoc t store)) eqn:Ht; [|discriminate].
    destruct (version_issues _); [|discriminate].
    intros [= <-]. eauto 6.
Qed.

Lemma schema_result_canonical store team :
  team = JNull ∨ (∃ t, team = JStr t ∧ truthy_str (assoc t store) = true) →
  schema_result host store (config_doc team) = Return (config_doc team).
Proof.
  intros [-> | (t & -> & Ht)]; [done|].
  unfold schema_result; cbn. by rewrite Ht.
Qed.

Lemma truthy_team_ok store team :
  team = JNull ∨ (∃ t, team = JStr t ∧ truthy_str (assoc t store) = true) →
  team_ok store team.
Proof.
  intros [-> | (t & -> & Ht)]; [by left | right].
  destruct (assoc t store) as [secret|] eqn:E; [eauto | discriminate].
Qed.

Lemma schema_result_valid_doc store data d :
  schema_result host store data = Return d → valid_doc store d.
Proof.
  intros (team & -> & H)%schema_result_valid.
  exists team. split; [done | by apply truthy_team_ok].
Qed.

Lemma unknown_team_result store o t :
  prop "team" o = JStr t →
  truthy_str (assoc t store) = false →
  schema_result host store (JObj o)
  = Throw (ConfigError
             (not_found_message host t (did_you_mean host (closest store.*1 t)))).
Proof. intros Hp Ht. unfold schema_result. by rewrite Hp; cbn; rewrite Ht. Qed.

(** C8.  [write] validates before it writes: when the document fails the
    schema, [write] throws that error, the config file is what it was and
    the "Writing config" line is never logged.  The directory exists
    afterwards, created if it was missing, because that step comes first.
    Credentials and environment are not touched. *)
Theorem write_invalid_keeps_file (w : World) (config : jsval) (e : Exception) :
  (parseAsync (schema host) config w).1 = Throw e →
  ∃ w', write host config w = (Throw e, w')
        ∧ config_file w' = config_file w
        ∧ config_dir w' = true
        ∧ (∀ m, Info m ∈ log w' → Info m ∈ log w)
        ∧ credentials w' = credentials w
        ∧ environ w' = environ w.
Proof.
  intros He. rewrite parseAsync_schema in He. cbn in He.
  rewrite write_unfold; cbn. rewrite He.
  eexists; split; [done|]. cbn.
  rewrite config_file_ensure_dir, config_dir_ensure_dir,
    credentials_ensure_dir, environ_ensure_dir.
  repeat split; try done.
  intros m [Hm | Hm]%elem_of_app.
  - unfold ensure_dir in Hm. destruct (config_dir w); [done|].
    cbn in Hm. apply elem_of_app in Hm as [Hm | Hm]; [done|].
    by apply list_elem_of_singleton in Hm.
  - destruct config as [| | | | |?|o]; cbn in Hm; try by apply elem_of_nil in Hm.
    destruct (or_default JNull (prop "team" o)); try by apply elem_of_nil in Hm.
    destruct (truthy_str _); [by apply elem_of_nil in Hm|].
    by apply list_elem_of_singleton in Hm.
Qed.

(** ** Frames: what the store operations leave alone *)

Lemma write_frame config w :
  credentials (write host config w).2 = credentials w
  ∧ environ (write host config w).2 = environ w
  ∧ config_dir (write host config w).2 = true.
Proof.
  rewrite write_unfold; cbn.
  destruct (schema_result host (credentials w) config); cbn;
    by rewrite credentials_ensure_dir, environ_ensure_dir, config_dir_ensure_dir.
Qed.

Lemma read_frame w :
  credentials (read host w).2 = credentials w
  ∧ environ (read host w).2 = environ w.
Proof.
  rewrite read_unfold.
  destruct (config_file w) as [f|]; [|done].
  destruct (yaml_parse host (content f)) as [config|]; cbn.
  - destruct (schema_result host (credentials w) config); cbn; [done|].
    by rewrite credentials_ensure_dir, environ_ensure_dir.
  - by rewrite credentials_ensure_dir, environ_ensure_dir.
Qed.

Lemma persists_valid_trans w w1 w2 :
  credentials w1 = credentials w →
  persists_valid host w w1 → persists_valid host w1 w2 →
  persists_valid host w w2.
Proof.
  intros Hc H1 [H2 | (d & Hd & H2)].
  - destruct H1 as [H1 | (d & Hd & H1)]; [left | right]; [congruence|].
    exists d. split; [done | congruence].
  - right. exists d. by rewrite <- Hc.
Qed.

Lemma write_persists config w : persists_valid host w (write host config w).2.
Proof.
  rewrite write_unfold; cbn.
  destruct (schema_result host (credentials w) config) as [d|e] eqn:Hr; cbn.
  - right. exists d. split; [by eapply schema_result_valid_doc | done].
  - left. apply config_file_ensure_dir.
Qed.

Lemma default_doc_valid store : valid_doc store (config_doc JNull).
Proof. exists JNull. split; [done | by left]. Qed.

Lemma read_persists w : persists_valid host w (read host w).2.
Proof.
  rewrite read_unfold.
  destruct (config_file w) as [f|] eqn:Hf; [|by left].
  destruct (yaml_parse host (content f)) as [config|]; cbn.
  - destruct (schema_result host (credentials w) config); cbn; [by left|].
    right. exists (config_doc JNull). split; [apply default_doc_valid | done].
  - right. exists (config_doc JNull). split; [apply default_doc_valid | done].
Qed.

Lemma read_valid w d w' :
  read host w = (Return d, w') →
  ∃ team, d = config_doc team
          ∧ (team = JNull
             ∨ ∃ t, team = JStr t ∧ truthy_str (assoc t (credentials w)) = true).
Proof.
  rewrite read_unfold.
  destruct (config_file w) as [f|]; [|intros [= <- _]; by eauto].
  destruct (yaml_parse host (content f)) as [config|]; [|intros [= <- _]; by eauto].
  destruct (schema_result host (credentials w) config) as [d'|] eqn:Hr;
    [|intros [= <- _]; by eauto].
  intros [= <- _]. by eapply schema_result_valid.
Qed.

Lemma get_unfold p w d w1 :
  read host w = (Return d, w1) → get host p w = (Return (obj_get d p), w1).
Proof. intros H. unfold get. run. by rewrite H. Qed.

Lemma set_unfold p v w d w1 :
  read host w = (Return d, w1) →
  set host p v w = write host (obj_set d p v) w1.
Proof. intros H. unfold set. run. by rewrite H. Qed.

Lemma remove_unfold p w d w1 :
  read host w = (Return d, w1) →
  remove host p w = write host (obj_del d p) w1.
Proof. intros H. unfold remove. run. by rewrite H. Qed.

Lemma clear_unfold w : clear host w = write host (config_doc JNull) w.
Proof. unfold clear. run. rewrite parseAsync_schema. cbn. by rewrite add_logs_nil. Qed.

(** ** The document invariant *)

(** C9.  Every document that [read] returns has version 1 and a team that
    is [null] or a string for which the credential store returned a value,
    and whatever [read], [write], [get], [set], [remove] or [clear] leave in
    the config file is either what was there before or the serialization of
    such a document. *)
Theorem document_invariant (w : World) :
  (∃ d w', read host w = (Return d, w')
           ∧ valid_doc (credentials w) d
           ∧ persists_valid host w w')
  ∧ (∀ config, persists_valid host w (write host config w).2)
  ∧ (∀ p, persists_valid host w (get host p w).2)
  ∧ (∀ p value, persists_valid host w (set host p value w).2)
  ∧ (∀ p, persists_valid host w (remove host p w).2)
  ∧ persists_valid host w (clear host w).2.
Proof.
  destruct (read_total w) as (d & w1 & Hr).
  pose proof (read_persists w) as Hp. pose proof (read_frame w) as [Hc _].
  rewrite Hr in Hp, Hc. cbn in Hp, Hc.
  split; [|split; [|split; [|split; [|split]]]].
  - exists d, w1. split; [done|]. split; [|done].
    destruct (read_valid _ _ _ Hr) as (team & -> & Ht).
    exists team. split; [done | by apply truthy_team_ok].
  - intros config. apply write_persists.
  - intros p. by rewrite (get_unfold p _ _ _ Hr).
  - intros p value. rewrite (set_unfold p value _ _ _ Hr).
    eapply persists_valid_trans; [done.. | apply write_persists].
  - intros p. rewrite (remove_unfold p _ _ _ Hr).
    eapply persists_valid_trans; [done.. | apply write_persists].
  - rewrite clear_unfold. apply write_persists.
Qed.

(** ** The enumerated paths of the configuration schema *)

Lemma paths_team : paths host = Return ["team"].
Proof. reflexivity. Qed.

Lemma enumerated_team p : enumerated host p ↔ p = "team".
Proof.
  unfold enumerated. rewrite paths_team. split.
  - intros (ps & [= <-] & Hp). by apply list_elem_of_singleton in Hp.
  - intros ->. exists ["team"]. split; [done | by apply list_elem_of_singleton].
Qed.

Lemma obj_del_team team : obj_del (config_doc team) "team" = JObj [("version", JNum 1)].
Proof. reflexivity. Qed.

Lemma obj_set_team team value : obj_set (config_doc team) "team" value = config_doc value.
Proof. reflexivity. Qed.

Lemma obj_get_team team : obj_get (config_doc team) "team" = team.
Proof. reflexivity. Qed.

(** ** Removing a path *)

Lemma remove_team w :
  ∃ w1, remove host "team" w = (Return tt, w1)
        ∧ config_file w1 = Some (stored host (config_doc JNull))
        ∧ credentials w1 = credentials w.
Proof.
  destruct (read_total w) as (d & w0 & Hr).
  destruct (read_valid _ _ _ Hr) as (team & -> & _).
  pose proof (read_frame w) as [Hc _]. rewrite Hr in Hc. cbn in Hc.
  rewrite (remove_unfold _ _ _ _ Hr), obj_del_team, write_unfold. cbn.
  rewrite add_logs_nil. eexists. split; [done|]. cbn.
  split; [done|]. by rewrite credentials_ensure_dir.
Qed.

(** C7.  For every enumerated path, [remove] succeeds, a second [remove]
    right after it succeeds too and leaves the config file exactly as the
    first one left it; and the file the first one leaves is the document
    [{version: 1, team: null}]: the team is back at its default [null], not
    absent. *)
Theorem remove_idempotent (w : World) (p : string) :
  enumerated host p →
  ∃ w1 w2, remove host p w = (Return tt, w1)
           ∧ remove host p w1 = (Return tt, w2)
           ∧ config_file w2 = config_file w1
           ∧ config_file w1 = Some (stored host (config_doc JNull)).
Proof.
  intros ->%enumerated_team.
  destruct (remove_team w) as (w1 & H1 & Hf1 & _).
  destruct (remove_team w1) as (w2 & H2 & Hf2 & _).
  exists w1, w2. repeat split; try done. congruence.
Qed.

(** ** Setting the team *)

Lemma append_assoc (a b c : string) : (a +:+ b) +:+ c = a +:+ b +:+ c.
Proof.
  induction a as [|x a IH]; [done|].
  change (String x ((a +:+ b) +:+ c) = String x (a +:+ b +:+ c)).
  by f_equal.
Qed.

Lemma contains_here text needle before after :
  text = before +:+ needle +:+ after → contains text needle.
Proof. intros ->. by exists before, after. Qed.

Lemma message_names_team value didYouMean :
  contains (not_found_message host value didYouMean) (dq +:+ value +:+ dq).
Proof.
  eapply (contains_here _ _ "A team named ").
  unfold not_found_message. by rewrite !append_assoc.
Qed.

Lemma message_has_hint value didYouMean :
  contains (not_found_message host value didYouMean) didYouMean.
Proof.
  eapply (contains_here _ _
    ("A team named " +:+ dq +:+ value +:+ dq
     +:+ " was not found in your credentials file. ")).
  unfold not_found_message. by rewrite !append_assoc.
Qed.

Lemma contains_trans a b c : contains a b → contains b c → contains a c.
Proof.
  intros (p1 & s1 & ->) (p2 & s2 & ->).
  exists (p1 +:+ p2), (s2 +:+ s1). by rewrite !append_assoc.
Qed.

Lemma message_says_login value didYouMean :
  contains (not_found_message host value didYouMean)
    ("Are you logged in? Try running " +:+ dq +:+ bold host "pspace login"
     +:+ dq +:+ " first.").
Proof.
  exists ("A team named " +:+ dq +:+ value +:+ dq
     +:+ " was not found in your credentials file. " +:+ didYouMean +:+ nl),
    EmptyString.
  unfold not_found_message. by rewrite !append_assoc.
Qed.

Lemma closest_none candidates input :
  closest candidates input = None → candidates = [].
Proof.
  destruct candidates as [|x rest]; [done|]. cbn.
  destruct (closest rest input); [by destruct (_ <=? _) | done].
Qed.

Lemma closest_spec candidates input c :
  closest candidates input = Some c →
  c ∈ candidates
  ∧ ∀ c', c' ∈ candidates → levenshtein input c ≤ levenshtein input c'.
Proof.
  revert c. induction candidates as [|x rest IH]; intros c; cbn; [done|].
  destruct (closest rest input) as [best|] eqn:Hb.
  - destruct (IH best eq_refl) as [Hin Hmin].
    destruct (Nat.leb_spec (levenshtein input x) (levenshtein input best)).
    + intros [= <-]. split; [by left|].
      intros c' [-> | Hc']%elem_of_cons; [done|].
      specialize (Hmin c' Hc'). lia.
    + intros [= <-]. split; [by right|].
      intros c' [-> | Hc']%elem_of_cons; [lia | by apply Hmin].
  - intros [= <-]. split; [by left|].
    apply closest_none in Hb as ->.
    by intros c' [-> | Hc']%elem_of_cons; [| apply elem_of_nil in Hc'].
Qed.

Lemma closest_some candidates input :
  candidates ≠ [] → is_Some (closest candidates input).
Proof.
  destruct candidates as [|x rest]; [done|]. intros _. cbn.
  destruct (closest rest input); [by destruct (_ <=? _) | done].
Qed.

Lemma wf_store_name store c :
  wf_store store = true → c ∈ store.*1 → nonempty c = true.
Proof.
  unfold wf_store. rewrite forallb_forall.
  intros Hwf ([k v] & -> & Hin)%list_elem_of_fmap.
  apply list_elem_of_In, Hwf, andb_prop in Hin. tauto.
Qed.

Lemma assoc_elem store t secret :
  assoc t store = Some secret → (t, secret) ∈ store.
Proof.
  induction store as [|[k v] rest IH]; cbn; [done|].
  destruct (String.eqb_spec k t) as [-> | _].
  - intros [= <-]. by left.
  - intros H. right. by apply IH.
Qed.

Lemma wf_store_secret store t secret :
  wf_store store = true → assoc t store = Some secret →
  truthy_str (assoc t store) = true.
Proof.
  unfold wf_store. rewrite forallb_forall.
  intros Hwf Ha. rewrite Ha. cbn.
  apply assoc_elem, list_elem_of_In, Hwf, andb_prop in Ha. tauto.
Qed.

Lemma set_team_unknown w t :
  truthy_str (assoc t (credentials w)) = false →
  ∃ w', set host "team" (JStr t) w
        = (Throw (ConfigError
                    (not_found_message host t
                       (did_you_mean host (closest (credentials w).*1 t)))), w').
Proof.
  intros Ht.
  destruct (read_total w) as (d & w1 & Hr).
  destruct (read_valid _ _ _ Hr) as (team & -> & _).
  pose proof (read_frame w) as [Hc _]. rewrite Hr in Hc. cbn in Hc.
  rewrite (set_unfold _ _ _ _ _ Hr), obj_set_team, write_unfold. cbv zeta.
  rewrite Hc. unfold config_doc.
  rewrite (unknown_team_result _ _ t) by done. eauto.
Qed.

(** Once a valid team is set, and the YAML codec gives the written document
    back, [get] reads it. *)
Lemma set_then_get_team w value :
  value = JNull
  ∨ (∃ t, value = JStr t ∧ truthy_str (assoc t (credentials w)) = true) →
  yaml_parse host (yaml_stringify host (config_doc value))
  = Some (config_doc value) →
  ∃ w' w'', set host "team" value w = (Return tt, w')
            ∧ get host "team" w' = (Return value, w'').
Proof.
  intros Hv Hy.
  destruct (read_total w) as (d & w1 & Hr).
  destruct (read_valid _ _ _ Hr) as (team & -> & _).
  pose proof (read_frame w) as [Hc _]. rewrite Hr in Hc. cbn in Hc.
  rewrite (set_unfold _ _ _ _ _ Hr), obj_set_team, write_unfold. cbv zeta.
  rewrite Hc, (schema_result_canonical _ _ Hv).
  rewrite (schema_result_ok _ _ _ (schema_result_canonical _ _ Hv)), add_logs_nil.
  eexists _, _. split; [done|].
  erewrite get_unfold; [by rewrite obj_get_team|].
  rewrite read_unfold. unfold written at 1. cbn [config_file set_config_file].
  unfold stored at 1. cbn [content]. rewrite Hy.
  change (credentials (written host _ _)) with (credentials (ensure_dir host w1)).
  rewrite credentials_ensure_dir, Hc.
  by rewrite (schema_result_canonical _ _ Hv).
Qed.

(** C4.  In a well-formed store: setting the team to a [t] that has no
    entry throws a [ConfigError] whose message quotes [t], carries
    "Did you mean <closest>?" for the closest known team (least edit
    distance) whenever the store has any team, and tells the user to run
    "pspace login"; setting it to a [t] that has an entry succeeds, and
    (the YAML codec giving the written document back) [get("team")] then
    returns [t]. *)
Theorem set_team_checks_store (w : World) (t : string) :
  wf_store (credentials w) = true →
  (assoc t (credentials w) = None →
   ∃ message w',
     set host "team" (JStr t) w = (Throw (ConfigError message), w')
     ∧ contains message (dq +:+ t +:+ dq)
     ∧ (credentials w ≠ [] →
        ∃ c, c ∈ (credentials w).*1
             ∧ (∀ c', c' ∈ (credentials w).*1 →
                      levenshtein t c ≤ levenshtein t c')
             ∧ contains message ("Did you mean " +:+ bold host c +:+ "?"))
     ∧ contains message
         ("Are you logged in? Try running " +:+ dq +:+ bold host "pspace login"
          +:+ dq +:+ " first."))
  ∧ (∀ secret,
       assoc t (credentials w) = Some secret →
       yaml_parse host (yaml_stringify host (config_doc (JStr t)))
       = Some (config_doc (JStr t)) →
       ∃ w' w'', set host "team" (JStr t) w = (Return tt, w')
                 ∧ get host "team" w' = (Return (JStr t), w'')).
Proof.
  intros Hwf. split.
  - intros Hnone.
    destruct (set_team_unknown w t) as (w' & Hset); [by rewrite Hnone|].
    eexists _, w'. split; [exact Hset|].
    split; [apply message_names_team|].
    split; [|apply message_says_login].
    intros Hne.
    destruct (closest_some (credentials w).*1 t) as [c Hc].
    { by destruct (credentials w). }
    destruct (closest_spec _ _ _ Hc) as [Hin Hmin].
    exists c. split; [done|]. split; [done|].
    eapply contains_trans; [apply message_has_hint|].
    rewrite Hc. unfold did_you_mean. cbn.
    rewrite (wf_store_name _ _ Hwf Hin).
    exists (nl +:+ nl), EmptyString. by rewrite !append_assoc.
  - intros secret Hs Hy.
    apply set_then_get_team; [|done].
    right. exists t. split; [done|]. by eapply wf_store_secret.
Qed.

(** C5.  For every enumerated path [p] and every value [v] that satisfies
    the leaf constraint of [p] (for [team]: [null], or a team with an entry
    in a well-formed store), and a YAML codec that gives the written
    document back, [set(p, v)] succeeds and [get(p)] then returns [v]. *)
Theorem set_get_roundtrip (w : World) (p : string) (v : jsval) :
  enumerated host p →
  wf_store (credentials w) = true →
  leaf_constraint (credentials w) p v →
  yaml_parse host (yaml_stringify host (config_doc v)) = Some (config_doc v) →
  ∃ w' w'', set host p v w = (Return tt, w')
            ∧ get host p w' = (Return v, w'').
Proof.
  intros _ Hwf [-> Hv] Hy.
  apply set_then_get_team; [|done].
  destruct Hv as [-> | (t & secret & -> & Hs)]; [by left | right].
  exists t. split; [done|]. by eapply wf_store_secret.
Qed.

(** ** The credential resolver *)

Lemma flagged_key opt e :
  flagged opt e !! "PAPERSPACE_API_KEY"
  = if truthy_str (apiKey opt) then apiKey opt else e !! "PAPERSPACE_API_KEY".
Proof.
  unfold flagged.
  destruct (debug opt), (apiKey opt) as [k|], (apiUrl opt) as [u|]; cbn;
    try destruct (nonempty k); try destruct (nonempty u);
    by simplify_map_eq.
Qed.

Lemma read_set_environ e w :
  read host (set_environ e w)
  = ((read host w).1, set_environ e (read host w).2).
Proof.
  rewrite !read_unfold. cbn.
  destruct (config_file w) as [f|]; [|done].
  destruct (yaml_parse host (content f)) as [config|].
  - destruct (schema_result host (credentials w) config); [done|].
    unfold recovered, ensure_dir. cbn. by destruct (config_dir w).
  - unfold recovered, ensure_dir. cbn. by destruct (config_dir w).
Qed.

Lemma resolve_unfold opt w team w1 :
  read host w = (Return (config_doc team), w1) →
  team = JNull
  ∨ (∃ t, team = JStr t ∧ truthy_str (assoc t (credentials w)) = true) →
  resolve host opt w
  = let e := flagged opt (environ w) in
    if truthy_str (e !! "PAPERSPACE_API_KEY") then (Return tt, set_environ e w)
    else
      match team with
      | JStr t =>
          if nonempty t
          then (Return tt,
                set_environ
                  (<["PAPERSPACE_API_KEY" := default EmptyString (assoc t (credentials w))]> e)
                  w1)
          else (Return tt, set_environ e w1)
      | _ => (Return tt, set_environ e w1)
      end.
Proof.
  intros Hr Hteam. cbv zeta.
  assert (resolve host opt w
          = (key ← env_get "PAPERSPACE_API_KEY";
             if truthy_str key then mret tt
             else
               team ← get host "team";
               if truthy team
               then
                 match team with
                 | JStr t =>
                     secret ← credentials_get t;
                     env_set "PAPERSPACE_API_KEY" secret
                 | _ => mthrow TypeError
                 end
               else mret tt) (set_environ (flagged opt (environ w)) w)) as ->.
  { unfold resolve, flagged, env_set. run.
    destruct (debug opt), (apiKey opt) as [k|], (apiUrl opt) as [u|]; run;
      try destruct (nonempty k); try destruct (nonempty u); run;
      try reflexivity; by destruct w. }
  set (e := flagged opt (environ w)).
  run. destruct (truthy_str (e !! "PAPERSPACE_API_KEY")) eqn:Hk; run.
  { reflexivity. }
  assert (get host "team" (set_environ e w)
          = (Return team, set_environ e w1)) as ->.
  { erewrite get_unfold; [by rewrite obj_get_team|].
    by rewrite read_set_environ, Hr. }
  pose proof (read_frame w) as [Hc _]. rewrite Hr in Hc. cbn in Hc.
  destruct Hteam as [-> | (t & -> & Ht)]; cbn; [done|].
  destruct (nonempty t); run; [|done].
  rewrite Hc. unfold env_set.
  destruct (assoc t (credentials w)); [done | discriminate].
Qed.

Lemma truthy_str_some (o : option string) :
  truthy_str o = true → ∃ k, o = Some k ∧ nonempty k = true.
Proof. destruct o as [k|]; [by eauto | discriminate]. Qed.

Lemma team_credential_read w team w1 :
  read host w = (Return (config_doc team), w1) →
  team_credential host w
  = match team with JStr t => assoc t (credentials w) | _ => None end.
Proof.
  intros Hr. unfold team_credential.
  by rewrite (get_unfold _ _ _ _ Hr), obj_get_team.
Qed.

(** What [resolve] does, by source. *)
Lemma resolve_result opt w :
  wf_store (credentials w) = true →
  ∃ w' team w1,
    resolve host opt w = (Return tt, w')
    ∧ read host w = (Return (config_doc team), w1)
    ∧ effective w' = spec_resolver host opt w
    ∧ (truthy_str (apiKey opt) = true
       ∨ truthy_str (environ w !! "PAPERSPACE_API_KEY") = true →
       config_untouched w w')
    ∧ (truthy_str (apiKey opt) = false →
       truthy_str (environ w !! "PAPERSPACE_API_KEY") = false →
       config_file w' = config_file w1
       ∧ effective w' = team_credential host w
       ∧ ∀ t, team = JStr t →
              environ w' !! "PAPERSPACE_API_KEY" = assoc t (credentials w)).
Proof.
  intros Hwf.
  destruct (read_total w) as (d & w1 & Hr).
  destruct (read_valid _ _ _ Hr) as (team & -> & Hteam).
  rewrite (resolve_unfold opt _ _ _ Hr Hteam). cbv zeta.
  unfold spec_resolver, effective.
  rewrite (team_credential_read _ _ _ Hr), flagged_key.
  destruct (truthy_str (apiKey opt)) eqn:Ho.
  { cbv beta iota. rewrite Ho.
    eexists _, team, w1. split; [done|]. split; [done|].
    cbn. rewrite flagged_key, !Ho.
    split; [done|]. split; [done | discriminate]. }
  destruct (truthy_str (environ w !! "PAPERSPACE_API_KEY")) eqn:He.
  { eexists _, team, w1. split; [done|]. split; [done|].
    cbn. rewrite flagged_key, !Ho, !He.
    split; [done|]. split; [done | discriminate]. }
  destruct Hteam as [-> | (t & -> & Ht)].
  { eexists _, JNull, w1. split; [done|]. split; [done|].
    cbn. rewrite flagged_key, !Ho, !He.
    split; [done|]. split; [by intros [|] | done]. }
  destruct (truthy_str_some _ Ht) as (secret & Hs & Hne).
  assert (nonempty t = true) as ->.
  { eapply wf_store_name; [done|].
    apply assoc_elem in Hs. apply list_elem_of_fmap. by exists (t, secret). }
  eexists _, (JStr t), w1. split; [done|]. split; [done|].
  cbn. rewrite lookup_insert_eq, Hs. cbn. rewrite !Ho, !He, !Hne.
  split; [done|]. split; [by intros [|]|].
  intros _ _. split; [done|]. split; [done|].
  by intros ? [= <-].
Qed.

(** C3, as the code has it.  In a well-formed store (team names and
    secrets non-empty: the code tests both by truthiness), [resolve] never
    throws, and the credential it leaves for the
    invocation is the first non-empty one of: the [apiKey] option, the
    [PAPERSPACE_API_KEY] variable, the stored credential of the config's
    team.  A non-empty option [k1] wins over everything; without it a
    non-empty variable [k2] wins; in both cases the config store is not
    consulted (nothing read, written or logged).  Without both, the team's
    credential [k3] is the result, and without that there is no credential
    and still no error. *)
Theorem resolve_precedence (w : World) (opt : Options) :
  wf_store (credentials w) = true →
  ∃ w', resolve host opt w = (Return tt, w')
        ∧ effective w' = spec_resolver host opt w
        ∧ (∀ k1, apiKey opt = Some k1 → nonempty k1 = true →
                 effective w' = Some k1 ∧ config_untouched w w')
        ∧ (∀ k2, truthy_str (apiKey opt) = false →
                 environ w !! "PAPERSPACE_API_KEY" = Some k2 →
                 nonempty k2 = true →
                 effective w' = Some k2 ∧ config_untouched w w')
        ∧ (∀ k3, truthy_str (apiKey opt) = false →
                 truthy_str (environ w !! "PAPERSPACE_API_KEY") = false →
                 team_credential host w = Some k3 →
                 effective w' = Some k3)
        ∧ (truthy_str (apiKey opt) = false →
           truthy_str (environ w !! "PAPERSPACE_API_KEY") = false →
           team_credential host w = None →
           effective w' = None).
Proof.
  intros Hwf.
  destruct (resolve_result opt w Hwf) as (w' & team & w1 & Hres & Hr & Heq & Hu & Ht).
  exists w'. split; [done|]. split; [done|].
  split; [|split; [|split]].
  - intros k1 Hk1 Hne. split.
    + rewrite Heq. unfold spec_resolver. cbn. by rewrite Hk1; cbn; rewrite Hne.
    + apply Hu. left. by rewrite Hk1.
  - intros k2 Ho Hk2 Hne. split.
    + rewrite Heq. unfold spec_resolver. cbn. rewrite Ho, Hk2. cbn. by rewrite Hne.
    + apply Hu. right. by rewrite Hk2.
  - intros k3 Ho He Hk3. destruct (Ht Ho He) as (_ & -> & _). done.
  - intros Ho He Hnone. destruct (Ht Ho He) as (_ & -> & _). done.
Qed.

Lemma read_keeps_valid_file w :
  config_file w = None ∨ file_valid host w →
  config_file (read host w).2 = config_file w.
Proof.
  rewrite read_unfold.
  intros [Hf | (f & config & d & Hf & Hy & Hd)]; rewrite Hf; [done|].
  rewrite parseAsync_schema in Hd. cbn in Hd. by rewrite Hy, Hd.
Qed.

Lemma read_replaces_invalid_file w f :
  config_file w = Some f → ¬ file_valid host w →
  config_file (read host w).2 = Some (stored host (config_doc JNull)).
Proof.
  intros Hf Hnv. rewrite read_unfold, Hf.
  destruct (yaml_parse host (content f)) as [config|] eqn:Hy; [|done].
  destruct (schema_result host (credentials w) config) as [d|] eqn:Hd; [|done].
  destruct Hnv. exists f, config, d. repeat split; try done.
  by rewrite parseAsync_schema.
Qed.

(** C10, as the code has it.  In a well-formed store (team names and
    secrets non-empty), without an [apiKey] option and without a
    non-empty [PAPERSPACE_API_KEY], a config team [t] with a stored secret
    makes [resolve] write that secret into [PAPERSPACE_API_KEY]; whichever
    source supplied it, the variable holds the effective credential
    afterwards.  The config file is left alone when the option or the
    variable supplies the credential, and when the file is absent or
    valid; but the [read] behind [get("team")] replaces a file that does
    not parse or does not validate by the defaults, team [null]. *)
Theorem resolve_populates_environment (w : World) (opt : Options) :
  wf_store (credentials w) = true →
  ∃ w', resolve host opt w = (Return tt, w')
        ∧ (∀ t secret,
             truthy_str (apiKey opt) = false →
             truthy_str (environ w !! "PAPERSPACE_API_KEY") = false →
             (get host "team" w).1 = Return (JStr t) →
             assoc t (credentials w) = Some secret →
             environ w' !! "PAPERSPACE_API_KEY" = Some secret)
        ∧ effective w' = spec_resolver host opt w
        ∧ (truthy_str (apiKey opt) = true
           ∨ truthy_str (environ w !! "PAPERSPACE_API_KEY") = true
           ∨ config_file w = None
           ∨ file_valid host w →
           config_file w' = config_file w)
        ∧ (∀ f, truthy_str (apiKey opt) = false →
                truthy_str (environ w !! "PAPERSPACE_API_KEY") = false →
                config_file w = Some f →
                ¬ file_valid host w →
                config_file w' = Some (stored host (config_doc JNull))).
Proof.
  intros Hwf.
  destruct (resolve_result opt w Hwf) as (w' & team & w1 & Hres & Hr & Heq & Hu & Ht).
  exists w'. split; [done|].
  split; [|split; [done|split]].
  - intros t secret Ho He Hg Hs.
    destruct (Ht Ho He) as (_ & _ & Henv).
    rewrite (get_unfold _ _ _ _ Hr), obj_get_team in Hg. cbn in Hg.
    injection Hg as ->. by rewrite (Henv t eq_refl).
  - intros H.
    destruct (truthy_str (apiKey opt)) eqn:Ho.
    { destruct Hu as (_ & Hf & _); [by left | done]. }
    destruct (truthy_str (environ w !! "PAPERSPACE_API_KEY")) eqn:He.
    { destruct Hu as (_ & Hf & _); [by right | done]. }
    destruct (Ht eq_refl eq_refl) as (-> & _).
    destruct H as [? | [? | H]]; try discriminate.
    pose proof (read_keeps_valid_file w H) as Hk. by rewrite Hr in Hk.
  - intros f Ho He Hf Hnv.
    destruct (Ht Ho He) as (-> & _).
    pose proof (read_replaces_invalid_file w f Hf Hnv) as Hk. by rewrite Hr in Hk.
Qed.

End Facts.

(** ** The path enumerator *)

Lemma ZodType_ind_fields (P : ZodType → Prop) :
  P ZodString → P ZodNumber → P ZodAny → (∀ v, P (ZodLiteral v)) →
  (∀ s f, P s → P (ZodEffects s f)) →
  (∀ i, P i → P (ZodNullable i)) →
  (∀ i, P i → P (ZodOptional i)) →
  (∀ i d, P i → P (ZodDefault i d)) →
  (∀ shape, Forall (λ kv, P kv.2) shape → P (ZodObject shape)) →
  ∀ t, P t.
Proof.
  intros Hs Hn Ha Hl He Hnu Ho Hd Hobj. fix IH 1.
  intros [| | | v | s f | i | i | i d | shape];
    [ exact Hs | exact Hn | exact Ha | apply Hl | apply He, IH | apply Hnu, IH
    | apply Ho, IH | apply Hd, IH | ].
  apply Hobj.
  refine ((fix go (sh : list (string * ZodType)) : Forall (λ kv, P kv.2) sh :=
             match sh with
             | [] => @List.Forall_nil _ _
             | kv :: rest => @List.Forall_cons _ _ kv rest (IH kv.2) (go rest)
             end) shape).
Qed.

Lemma concat_bind (x : Outcome (list string)) (y : Outcome (list (list string))) :
  @concat string <$> (x ≫= λ here, y ≫= λ there, Return (here :: there))
  = x ≫= λ here, (@concat string <$> y) ≫= λ there, Return (here ++ there).
Proof. by destruct x, y. Qed.

Lemma getKeys_cons key field rest :
  getKeys (ZodObject ((key, field) :: rest))
  = (here ← field_keys key field;
     there ← getKeys (ZodObject rest);
     Return (here ++ there)).
Proof.
  unfold field_keys. cbn.
  destruct (isOptional field) as [[|]|]; cbn; try done; apply concat_bind.
Qed.

Lemma object_chains_cons key field rest :
  object_chains ((key, field) :: rest)
  = field_chains key field ++ object_chains rest.
Proof. reflexivity. Qed.

Lemma leaf_chains_object shape :
  leaf_chains (ZodObject shape) = Some (object_chains shape).
Proof. reflexivity. Qed.

Lemma tidy_cons key field rest :
  tidy (ZodObject ((key, field) :: rest)) = tidy field && tidy (ZodObject rest).
Proof. reflexivity. Qed.

Lemma dotted_cons key chain :
  chain ≠ [] → dotted (key :: chain) = key +:+ "." +:+ dotted chain.
Proof. by destruct chain. Qed.

Lemma dotted_prefixed key (chains : list (list string)) :
  Forall (λ c, c ≠ []) chains →
  map (λ subKey, key +:+ "." +:+ subKey) (dotted <$> chains)
  = dotted <$> map (cons key) chains.
Proof.
  induction 1 as [|c cs Hc _ IH]; [done|].
  cbn [map fmap list_fmap]. rewrite (dotted_cons _ _ Hc). f_equal. apply IH.
Qed.

Lemma field_chains_nonempty key field :
  Forall (λ c, c ≠ []) (field_chains key field).
Proof.
  unfold field_chains. destruct (leaf_chains field) as [sub|].
  - apply Forall_forall. intros c Hc.
    by apply list_elem_of_In, in_map_iff in Hc as (c' & <- & _).
  - by repeat constructor.
Qed.

Lemma object_chains_nonempty shape :
  Forall (λ c, c ≠ []) (object_chains shape).
Proof.
  induction shape as [|[key field] rest IH]; [constructor|].
  rewrite object_chains_cons. apply Forall_app.
  split; [apply field_chains_nonempty | done].
Qed.

Lemma isOptional_object shape : isOptional (ZodObject shape) = Return false.
Proof. reflexivity. Qed.

(** A field that is a leaf for [getKeys] and for the specification. *)
Lemma field_keys_leaf key field optional :
  isOptional field = Return optional →
  (optional = true → is_Some (innerType_of field)) →
  has_shape (if optional then unwrapped field else field) = false →
  leaf_chains field = None →
  field_keys key field = Return (dotted <$> field_chains key field).
Proof.
  intros Ho Hi Hs Hl. unfold field_keys, field_chains. rewrite Ho, Hl. cbn.
  destruct optional.
  - destruct (Hi eq_refl) as [i Hin]. rewrite Hin. by rewrite Hs.
  - by rewrite Hs.
Qed.

Lemma leafy_none t : leafy t = true → leaf_chains t = None.
Proof. unfold leafy. by destruct (leaf_chains t). Qed.

(** A wrapper as a field, given what holds of the node inside. *)
Lemma field_keys_wrapper key t i :
  innerType_of t = Some i →
  unwrapped t = i →
  has_shape t = false →
  leaf_chains t = leaf_chains i →
  (∀ shape, i = ZodObject shape → tidy i = true →
            getKeys i = Return (dotted <$> object_chains shape)) →
  match isOptional t with
  | Return true => match i with ZodObject _ => tidy i | _ => leafy i end
  | Return false => leafy i
  | Throw _ => false
  end = true →
  field_keys key t = Return (dotted <$> field_chains key t).
Proof.
  intros Hin Hun Hsh Hlc IH Ht.
  destruct (isOptional t) as [[|]|] eqn:Ho; [| |done].
  - destruct (has_shape i) eqn:Hi.
    + destruct i as [| | | | | | | |shape]; try discriminate.
      unfold field_keys, field_chains.
      rewrite Ho, Hin, Hlc, leaf_chains_object. cbn. rewrite Hun. cbn [has_shape].
      rewrite (IH shape eq_refl Ht). cbn.
      by rewrite dotted_prefixed by apply object_chains_nonempty.
    + assert (leafy i = true) as Hl by by destruct i.
      apply (field_keys_leaf _ _ true); rewrite ?Hun, ?Hin; try done.
      by rewrite Hlc, leafy_none.
  - apply (field_keys_leaf _ _ false); try done.
    by rewrite Hlc, leafy_none.
Qed.

Lemma tidy_leaf t :
  innerType_of t = None → has_shape t = false → tidy t = true →
  isOptional t = Return false.
Proof.
  destruct t as [| | | v | s f | | | | ]; try discriminate; intros _ _;
    unfold isOptional; cbn; try done.
  - by destruct v.
  - by destruct (safeParse_success s JUndefined) as [[|]|].
Qed.

Lemma getKeys_tidy t :
  tidy t = true →
  (∀ key, field_keys key t = Return (dotted <$> field_chains key t))
  ∧ (∀ shape, t = ZodObject shape →
              getKeys t = Return (dotted <$> object_chains shape)).
Proof.
  induction t as [| | | v | s f IH | i IH | i IH | i d IH | shape IH]
    using ZodType_ind_fields; intros Ht.
  1-5: split; [|done]; intros key;
       apply (field_keys_leaf _ _ false); try done; by apply tidy_leaf.
  1-3: split; [|done]; intros key;
       apply (field_keys_wrapper _ _ i); try done;
       intros shape -> Hi; by apply IH.
  assert (getKeys (ZodObject shape) = Return (dotted <$> object_chains shape)) as Hg.
  { induction IH as [|[key field] rest Hf _ IHrest]; [done|].
    rewrite tidy_cons in Ht. apply andb_prop in Ht as [Ht1 Ht2].
    rewrite getKeys_cons, object_chains_cons, fmap_app.
    destruct (Hf Ht1) as [Hk _]. by rewrite Hk, (IHrest Ht2). }
  split; [|by intros ? [= <-]].
  intros key. unfold field_keys, field_chains.
  rewrite isOptional_object, leaf_chains_object. cbn [mbind Outcome_bind innerType_of has_shape].
  rewrite Hg. cbn.
  by rewrite dotted_prefixed by apply object_chains_nonempty.
Qed.

(** The configuration schema itself is tidy. *)
Lemma config_schema_tidy (host : Host) : tidy (schema host) = true.
Proof. reflexivity. Qed.

(** C6, as the code has it.  On a tidy schema (every nested object bare or
    directly under one wrapper that makes the field optional) [getKeys]
    returns, in depth-first order, exactly the dotted key chains of the
    leaves, one entry per leaf and no entry for an object; [paths_of] is
    that sequence without ["version"].  [getKeys] is a function of the
    schema, so the sequence is the same on every run. *)
Theorem getKeys_enumerates_leaves (shape : list (string * ZodType)) :
  tidy (ZodObject shape) = true →
  ∃ chains,
    leaf_chains (ZodObject shape) = Some chains
    ∧ getKeys (ZodObject shape) = Return (dotted <$> chains)
    ∧ ∃ ps, paths_of (ZodObject shape) = Return ps
            ∧ ("version" ∉ ps)
            ∧ (∀ p, p ∈ ps ↔ p ≠ "version" ∧ p ∈ (dotted <$> chains)).
Proof.
  intros Ht. exists (object_chains shape).
  destruct (getKeys_tidy _ Ht) as [_ Hg]. specialize (Hg shape eq_refl).
  split; [done|]. split; [done|].
  unfold paths_of. rewrite Hg. eexists. split; [done|].
  assert (∀ p, p ∈ filter (λ key, negb (String.eqb key "version"))
                     (dotted <$> object_chains shape)
               ↔ p ≠ "version" ∧ p ∈ (dotted <$> object_chains shape)) as Hin.
  { intros p. rewrite list_elem_of_filter.
    destruct (String.eqb_spec p "version") as [-> | Hne]; cbn;
      split; intros [? ?]; done. }
  split; [|done]. intros Hv%Hin. by destruct Hv.
Qed.

(** ** The theorems at work on concrete worlds *)

(** C1: the file names the unknown team [ghost].  It parses, validation
    throws a [ConfigError], and still [read] returns the defaults and the
    file holds the defaults afterwards. *)
Lemma read_invalid_team_counterexample :
  yaml_parse example_host (team_text "ghost") = Some (config_doc (JStr "ghost"))
  ∧ (∃ message,
       (parseAsync (schema example_host) (config_doc (JStr "ghost")) ghost_world).1
       = Throw (ConfigError message))
  ∧ (read example_host ghost_world).1 = Return (config_doc JNull)
  ∧ config_file (read example_host ghost_world).2
    = Some (stored example_host (config_doc JNull)).
Proof.
  split; [reflexivity|]. split; [eexists; reflexivity|].
  split; reflexivity.
Qed.

Lemma read_recovers_witness :
  ∃ w', read example_host ghost_world = (Return (config_doc JNull), w')
        ∧ config_file w' = Some (stored example_host (config_doc JNull)).
Proof.
  eapply (read_recovers_from_invalid_document example_host ghost_world);
    reflexivity.
Defined.

Lemma read_missing_or_corrupt_witness :
  (∃ w', read example_host fresh_world = (Return (config_doc JNull), w')
         ∧ config_file w' = None
         ∧ config_dir w' = false)
  ∧ (∃ w', read example_host corrupt_world = (Return (config_doc JNull), w')
           ∧ config_file w' = Some (stored example_host (config_doc JNull))).
Proof.
  split.
  - apply (proj1 (read_missing_or_corrupt example_host fresh_world)).
    reflexivity.
  - eapply (proj2 (read_missing_or_corrupt example_host corrupt_world));
      reflexivity.
Defined.

Lemma write_invalid_keeps_file_witness :
  ∃ message w',
    write example_host (config_doc (JStr "ghost")) fresh_world
    = (Throw (ConfigError message), w')
    ∧ config_file w' = None
    ∧ config_dir fresh_world = false
    ∧ config_dir w' = true.
Proof.
  destruct (write_invalid_keeps_file example_host fresh_world
              (config_doc (JStr "ghost")) _ eq_refl)
    as (w' & Hw & Hf & Hd & _).
  eexists _, w'. split; [exact Hw|]. split; [exact Hf|]. split; [reflexivity|].
  exact Hd.
Defined.

Lemma remove_idempotent_witness :
  ∃ w1 w2,
    remove example_host "team" (acme_world []) = (Return tt, w1)
    ∧ remove example_host "team" w1 = (Return tt, w2)
    ∧ config_file w2 = config_file w1
    ∧ config_file w1 = Some (stored example_host (config_doc JNull)).
Proof.
  apply (remove_idempotent example_host (acme_world []) "team").
  exists ["team"]. split; [reflexivity | apply list_elem_of_here].
Defined.

Lemma set_team_checks_store_witness :
  (∃ message w',
     set example_host "team" (JStr "acmee") fresh_world
     = (Throw (ConfigError message), w')
     ∧ contains message (dq +:+ "acmee" +:+ dq)
     ∧ (∃ c, c ∈ ["acme"; "beta"]
             ∧ (∀ c', c' ∈ ["acme"; "beta"] →
                      levenshtein "acmee" c ≤ levenshtein "acmee" c')
             ∧ contains message
                 ("Did you mean " +:+ bold example_host c +:+ "?"))
     ∧ contains message
         ("Are you logged in? Try running " +:+ dq
          +:+ bold example_host "pspace login" +:+ dq +:+ " first."))
  ∧ (∃ w' w'',
       set example_host "team" (JStr "beta") fresh_world = (Return tt, w')
       ∧ get example_host "team" w' = (Return (JStr "beta"), w'')).
Proof.
  split.
  - destruct (proj1 (set_team_checks_store example_host fresh_world "acmee"
                       eq_refl) eq_refl)
      as (message & w' & Hs & Hn & Hc & Hl).
    exists message, w'. split; [exact Hs|]. split; [exact Hn|].
    split; [|exact Hl]. apply Hc. discriminate.
  - eapply (proj2 (set_team_checks_store example_host fresh_world "beta"
                     eq_refl)); reflexivity.
Defined.

Lemma set_get_roundtrip_witness :
  ∃ w' w'',
    set example_host "team" (JStr "beta") (acme_world []) = (Return tt, w')
    ∧ get example_host "team" w' = (Return (JStr "beta"), w'').
Proof.
  apply (set_get_roundtrip example_host (acme_world []) "team" (JStr "beta")).
  - exists ["team"]. split; [reflexivity | apply list_elem_of_here].
  - reflexivity.
  - split; [reflexivity|]. right. exists "beta", "K4". split; reflexivity.
  - reflexivity.
Defined.

(** C6: under [.nullish()] the object is not reached.  The schema has the
    leaves [version] and [settings.theme]; [paths_of] yields [settings],
    the path of an object, and no path for the leaf [theme]. *)
Lemma getKeys_nullish_counterexample :
  leaf_chains nullish_schema = Some [["version"]; ["settings"; "theme"]]
  ∧ isOptional nullish_settings = Return true
  ∧ leaf_chains nullish_settings = Some [["theme"]]
  ∧ getKeys nullish_schema = Return ["version"; "settings"]
  ∧ paths_of nullish_schema = Return ["settings"].
Proof. repeat split; reflexivity. Qed.

Lemma getKeys_enumerates_leaves_witness :
  ∃ chains,
    leaf_chains nested_schema = Some chains
    ∧ getKeys nested_schema = Return (dotted <$> chains)
    ∧ ∃ ps, paths_of nested_schema = Return ps
            ∧ ("version" ∉ ps)
            ∧ (∀ p, p ∈ ps ↔ p ≠ "version" ∧ p ∈ (dotted <$> chains)).
Proof.
  apply (getKeys_enumerates_leaves
           [ ("version", ZodDefault (ZodLiteral (JNum 1)) (JNum 1));
             ("team", ZodDefault (ZodNullable ZodString) JNull);
             ("display",
               ZodOptional
                 (ZodObject
                    [ ("color", ZodString);
                      ("table",
                        ZodObject [("width", ZodDefault ZodNumber (JNum 80))]) ])) ]).
  reflexivity.
Defined.

Lemma resolve_precedence_witness :
  (∃ w', resolve example_host (with_api_key "K1")
           (acme_world [("PAPERSPACE_API_KEY", "K2")]) = (Return tt, w')
         ∧ effective w' = Some "K1")
  ∧ (∃ w', resolve example_host no_options
             (acme_world [("PAPERSPACE_API_KEY", "K2")]) = (Return tt, w')
           ∧ effective w' = Some "K2")
  ∧ (∃ w', resolve example_host no_options (acme_world []) = (Return tt, w')
           ∧ effective w' = Some "K3")
  ∧ (∃ w', resolve example_host no_options fresh_world = (Return tt, w')
           ∧ effective w' = None).
Proof.
  split; [|split; [|split]].
  - destruct (resolve_precedence example_host
                (acme_world [("PAPERSPACE_API_KEY", "K2")]) (with_api_key "K1")
                eq_refl) as (w' & Hr & _ & H1 & _).
    exists w'. split; [exact Hr|]. exact (proj1 (H1 "K1" eq_refl eq_refl)).
  - destruct (resolve_precedence example_host
                (acme_world [("PAPERSPACE_API_KEY", "K2")]) no_options
                eq_refl) as (w' & Hr & _ & _ & H2 & _).
    exists w'. split; [exact Hr|]. exact (proj1 (H2 "K2" eq_refl eq_refl eq_refl)).
  - destruct (resolve_precedence example_host (acme_world []) no_options
                eq_refl) as (w' & Hr & _ & _ & _ & H3 & _).
    exists w'. split; [exact Hr|]. exact (H3 "K3" eq_refl eq_refl eq_refl).
  - destruct (resolve_precedence example_host fresh_world no_options
                eq_refl) as (w' & Hr & _ & _ & _ & _ & H4).
    exists w'. split; [exact Hr|]. exact (H4 eq_refl eq_refl eq_refl).
Defined.

(** C10: resolution with the file that names the unknown team [ghost].
    Nothing is in the option or the variable, so [get("team")] runs, and
    its [read] replaces the file: the persisted team goes from [ghost] to
    [null]. *)
Lemma resolve_rewrites_invalid_file_counterexample :
  (resolve example_host no_options ghost_world).1 = Return tt
  ∧ content <$> config_file ghost_world = Some (team_text "ghost")
  ∧ yaml_parse example_host (team_text "ghost")
    = Some (config_doc (JStr "ghost"))
  ∧ content <$> config_file (resolve example_host no_options ghost_world).2
    = Some (yaml_stringify example_host (config_doc JNull))
  ∧ yaml_parse example_host (yaml_stringify example_host (config_doc JNull))
    = Some (config_doc JNull).
Proof. repeat split; reflexivity. Qed.

Lemma resolve_populates_environment_witness :
  ∃ w', resolve example_host no_options (acme_world []) = (Return tt, w')
        ∧ environ w' !! "PAPERSPACE_API_KEY" = Some "K3"
        ∧ effective w' = Some "K3"
        ∧ config_file w' = config_file (acme_world []).
Proof.
  destruct (resolve_populates_environment example_host (acme_world [])
              no_options eq_refl) as (w' & Hr & Hk & He & Hf & _).
  exists w'. split; [exact Hr|].
  split; [exact (Hk "acme" "K3" eq_refl eq_refl eq_refl eq_refl)|].
  split; [rewrite He; reflexivity|].
  apply Hf. right. right. right.
  exists {| content := team_text "acme"; mode := 384 |},
    (config_doc (JStr "acme")), (config_doc (JStr "acme")).
  repeat split; reflexivity.
Defined.

(** C3, at a store and a file outside the well-formed ones: the config
    names the team with the empty name, which has the stored credential
    [K7].  The three sources as the specification words them give [K7];
    [resolve] tests the team with [if (team)], skips the store and leaves
    no credential. *)
Lemma resolve_skips_blank_team_counterexample :
  spec_resolver example_host no_options blank_team_world = Some "K7"
  ∧ ∃ w', resolve example_host no_options blank_team_world = (Return tt, w')
          ∧ effective w' = None.
Proof. split; [reflexivity|]. eexists. split; reflexivity. Defined.

(** C4, at a store with an entry whose secret is empty: the store has an
    entry for [acme], and [set("team", "acme")] throws all the same, as
    the schema tests the secret with [if (await credentials.get(value))]. *)
Lemma set_team_blank_secret_counterexample :
  assoc "acme" (credentials blank_secret_world) = Some EmptyString
  ∧ ∃ message w',
      set example_host "team" (JStr "acme") blank_secret_world
      = (Throw (ConfigError message), w').
Proof. split; [reflexivity|]. eexists _, _. reflexivity. Defined.

(** C5, at the same store: [team] is an enumerated path, ["acme"] meets
    its leaf constraint (a string with an entry in the store), the YAML
    codec gives the document back, and [set] throws, so that no [get]
    follows. *)
Lemma set_get_blank_secret_counterexample :
  enumerated example_host "team"
  ∧ leaf_constraint (credentials blank_secret_world) "team" (JStr "acme")
  ∧ yaml_parse example_host (yaml_stringify example_host (config_doc (JStr "acme")))
    = Some (config_doc (JStr "acme"))
  ∧ ∃ message w',
      set example_host "team" (JStr "acme") blank_secret_world
      = (Throw (ConfigError message), w').
Proof.
  split; [exists ["team"]; split; [reflexivity | repeat constructor]|].
  split; [split; [reflexivity | right; by exists "acme", EmptyString]|].
  split; [reflexivity|]. eexists _, _. reflexivity.
Defined.

(** * Further properties of the store *)

Section StoreFacts.
Context (host : Host).

(** ** Writing a valid document *)

(** [write] of a document that passes the schema succeeds: the file then
    holds the serialization of the validated document (version 1 and a
    checked team, whatever else the input carried) with mode 0o600, the
    directory exists, and "Writing config" is logged.  Credentials and
    environment are not touched. *)
Theorem write_valid_stores_document (w : World) (config d : jsval) :
  (parseAsync (schema host) config w).1 = Return d →
  ∃ w', write host config w = (Return tt, w')
        ∧ config_file w' = Some (stored host d)
        ∧ mode (stored host d) = 384%Z
        ∧ valid_doc (credentials w) d
        ∧ config_dir w' = true
        ∧ Info ("Writing config: " +:+ dq +:+ CONFIG_PATH host +:+ dq +:+ ".")
          ∈ log w'
        ∧ credentials w' = credentials w
        ∧ environ w' = environ w.
Proof.
  intros Hd. rewrite parseAsync_schema in Hd. cbn in Hd.
  rewrite write_unfold. cbv zeta. rewrite Hd.
  eexists. split; [done|].
  split; [done|]. split; [done|].
  split; [by eapply schema_result_valid_doc|].
  cbn. rewrite config_dir_ensure_dir, credentials_ensure_dir, environ_ensure_dir.
  split; [done|]. split; [|done].
  apply elem_of_app. right. by apply list_elem_of_singleton.
Qed.

(** ** What validation looks at *)

(** The schema reads the [version] and the [team] of an object and nothing
    else: two objects that agree on both are validated alike, with the same
    result and the same log, and [write] treats them alike.  Further keys
    and the order of the keys make no difference. *)
Theorem schema_reads_version_and_team_only
    (o o' : list (string * jsval)) (w : World) :
  prop "version" o = prop "version" o' →
  prop "team" o = prop "team" o' →
  parseAsync (schema host) (JObj o) w = parseAsync (schema host) (JObj o') w
  ∧ write host (JObj o) w = write host (JObj o') w.
Proof.
  intros Hv Ht.
  assert (schema_result host (credentials w) (JObj o)
          = schema_result host (credentials w) (JObj o')) as Hr.
  { unfold schema_result. by rewrite Hv, Ht. }
  assert (schema_log (credentials w) (JObj o)
          = schema_log (credentials w) (JObj o')) as Hl.
  { unfold schema_log. by rewrite Ht. }
  split.
  - by rewrite !parseAsync_schema, Hr, Hl.
  - rewrite !write_unfold. cbv zeta. by rewrite Hr, Hl.
Qed.

(** Validation is idempotent: what the schema returned passes the schema
    again, comes back unchanged, and nothing is logged. *)
Theorem validated_document_revalidates (w : World) (config d : jsval) :
  (parseAsync (schema host) config w).1 = Return d →
  parseAsync (schema host) d w = (Return d, w).
Proof.
  intros Hd. rewrite parseAsync_schema in Hd. cbn in Hd.
  destruct (schema_result_valid _ _ _ _ Hd) as (team & -> & Ht).
  rewrite parseAsync_schema.
  rewrite (schema_result_canonical host _ _ Ht).
  by rewrite (schema_result_ok _ _ _ _ (schema_result_canonical host _ _ Ht)),
    add_logs_nil.
Qed.

(** ** Reading *)

Lemma read_valid_file w :
  file_valid host w →
  ∃ d, read host w = (Return d, w) ∧ valid_doc (credentials w) d.
Proof.
  intros (f & config & d & Hf & Hy & Hd).
  rewrite parseAsync_schema in Hd. cbn in Hd.
  exists d. split; [by rewrite read_unfold, Hf, Hy, Hd|].
  by eapply schema_result_valid_doc.
Qed.

(** A valid file is read without any effect: the world after [read], log
    included, is the world before, and [get] is as harmless. *)
Theorem read_valid_file_changes_nothing (w : World) :
  file_valid host w →
  ∃ d, read host w = (Return d, w)
       ∧ valid_doc (credentials w) d
       ∧ ∀ p, get host p w = (Return (obj_get d p), w).
Proof.
  intros (d & Hr & Hd)%read_valid_file.
  exists d. split; [done|]. split; [done|].
  intros p. by apply get_unfold.
Qed.

(** What [read] returns can be written back: [write] of it succeeds and
    stores exactly that document. *)
Theorem read_then_write_back (w : World) :
  ∃ d w1 w2, read host w = (Return d, w1)
             ∧ write host d w1 = (Return tt, w2)
             ∧ config_file w2 = Some (stored host d).
Proof.
  destruct (read_total host w) as (d & w1 & Hr).
  destruct (read_valid _ _ _ _ Hr) as (team & -> & Ht).
  pose proof (read_frame host w) as [Hc _]. rewrite Hr in Hc. cbn in Hc.
  rewrite <- Hc in Ht.
  exists (config_doc team), w1. eexists. split; [done|].
  rewrite write_unfold. cbv zeta.
  by rewrite (schema_result_canonical host _ _ Ht).
Qed.

(** After one [read] the config is settled: given that the YAML codec
    gives the default document back, a second [read] returns the same
    document as the first and leaves the file as the first left it. *)
Theorem read_twice (w : World) :
  yaml_parse host (yaml_stringify host (config_doc JNull))
  = Some (config_doc JNull) →
  ∃ d w1 w2, read host w = (Return d, w1)
             ∧ read host w1 = (Return d, w2)
             ∧ config_file w2 = config_file w1.
Proof.
  intros Hy. rewrite (read_unfold host w).
  assert (∀ w0, read host (recovered host w0)
                = (Return (config_doc JNull), recovered host w0)) as Hrec.
  { intros w0. rewrite read_unfold.
    unfold recovered at 1, written at 1. cbn [config_file set_config_file].
    unfold stored at 1. cbn [content]. by rewrite Hy. }
  destruct (config_file w) as [f|] eqn:Hf.
  - destruct (yaml_parse host (content f)) as [config|] eqn:Hp.
    + destruct (schema_result host (credentials w) config) as [d|] eqn:Hd.
      * exists d, w, w. by rewrite read_unfold, Hf, Hp, Hd.
      * eexists _, _, _. split; [done|]. by rewrite Hrec.
    + eexists _, _, _. split; [done|]. by rewrite Hrec.
  - eexists _, _, _. split; [done|].
    rewrite read_unfold. cbn [config_file missing_warned add_log].
    by rewrite Hf.
Qed.

(** ** Setting *)

Lemma schema_log_team store t :
  schema_log store (config_doc (JStr t))
  = if truthy_str (assoc t store) then [] else [Critical (retaining_message t)].
Proof. reflexivity. Qed.

(** "Retaining current team": [set("team", t)] for a [t] without a usable
    credential throws and writes nothing.  The config file is what the
    [read] at the start of [set] left; with a valid file that is the file
    as it was, and [get("team")] afterwards returns what it returned
    before.  The critical line is logged. *)
Theorem set_unknown_team_keeps_config (w : World) (t : string) :
  truthy_str (assoc t (credentials w)) = false →
  ∃ message w',
    set host "team" (JStr t) w = (Throw (ConfigError message), w')
    ∧ config_file w' = config_file (read host w).2
    ∧ credentials w' = credentials w
    ∧ environ w' = environ w
    ∧ Critical (retaining_message t) ∈ log w'
    ∧ (file_valid host w →
       config_file w' = config_file w
       ∧ (get host "team" w').1 = (get host "team" w).1).
Proof.
  intros Ht.
  destruct (read_total host w) as (d & w1 & Hr).
  destruct (read_valid _ _ _ _ Hr) as (team & -> & Hteam).
  pose proof (read_frame host w) as [Hc He]. rewrite Hr in Hc, He. cbn in Hc, He.
  rewrite (set_unfold _ _ _ _ _ _ Hr), obj_set_team, write_unfold. cbv zeta.
  rewrite Hc, schema_log_team, Ht. unfold config_doc at 1.
  rewrite (unknown_team_result host _ _ t) by done.
  rewrite Hr.
  set (w' := add_logs _ _).
  assert (config_file w' = config_file w1) as Hf'
    by apply config_file_ensure_dir.
  assert (credentials w' = credentials w) as Hc'
    by (rewrite <- Hc; apply credentials_ensure_dir).
  assert (environ w' = environ w) as He'
    by (rewrite <- He; apply environ_ensure_dir).
  exists (not_found_message host t
            (did_you_mean host (closest (credentials w).*1 t))), w'.
  split; [done|]. split; [done|]. split; [done|]. split; [done|].
  split; [apply elem_of_app; right; by apply list_elem_of_singleton|].
  intros Hv.
  destruct (read_valid_file w Hv) as (d' & Hr' & _).
  assert (w1 = w) as Hw by congruence.
  assert (d' = config_doc team) as -> by congruence.
  split; [by rewrite Hf', Hw|].
  rewrite (get_unfold host "team" w _ _ Hr).
  assert (read host w' = (Return (config_doc team), w')) as Hr3.
  { destruct Hv as (f & config & d & Hf & Hy & Hd).
    rewrite parseAsync_schema in Hd. cbn in Hd.
    rewrite read_unfold, Hf', Hc', Hw, Hf, Hy, Hd.
    assert (read host w = (Return d, w)) as Hr2
      by by rewrite read_unfold, Hf, Hy, Hd.
    by assert (d = config_doc team) as -> by congruence. }
  by rewrite (get_unfold host "team" w' _ _ Hr3).
Qed.

Lemma set_team_null w :
  ∃ w1, set host "team" JNull w = (Return tt, w1)
        ∧ config_file w1 = Some (stored host (config_doc JNull))
        ∧ credentials w1 = credentials w
        ∧ environ w1 = environ w.
Proof.
  destruct (read_total host w) as (d & w0 & Hr).
  destruct (read_valid _ _ _ _ Hr) as (team & -> & _).
  pose proof (read_frame host w) as [Hc He]. rewrite Hr in Hc, He. cbn in Hc, He.
  rewrite (set_unfold _ _ _ _ _ _ Hr), obj_set_team, write_unfold. cbn.
  rewrite add_logs_nil. eexists. split; [done|]. cbn.
  by rewrite credentials_ensure_dir, environ_ensure_dir.
Qed.

(** A value of the wrong type is refused with a [ZodError] that names the
    path, and nothing is written: the version can only be 1, the team only
    a string or [null].  The file stays as the [read] of [set] left it. *)
Theorem set_rejects_ill_typed_values (w : World) (v : jsval) :
  (strict_eq (or_default (JNum 1) v) (JNum 1) = false →
   ∃ w', set host "version" v w
         = (Throw (ZodError [ {| code := invalid_literal; path := ["version"] |} ]),
            w')
         ∧ config_file w' = config_file (read host w).2)
  ∧ (match v with JBool _ | JNum _ | JArr _ | JObj _ => True | _ => False end →
     ∃ w', set host "team" v w
           = (Throw (ZodError [ {| code := invalid_type; path := ["team"] |} ]),
              w')
           ∧ config_file w' = config_file (read host w).2).
Proof.
  destruct (read_total host w) as (d & w1 & Hr).
  destruct (read_valid _ _ _ _ Hr) as (team & -> & Hteam).
  pose proof (read_frame host w) as [Hc _]. rewrite Hr in Hc. cbn in Hc.
  rewrite Hr. cbn [snd].
  split.
  - intros Hv.
    rewrite (set_unfold _ _ _ _ _ _ Hr), write_unfold. cbv zeta.
    change (obj_set (config_doc team) "version" v)
      with (JObj [("version", v); ("team", team)]).
    rewrite Hc.
    assert (schema_result host (credentials w) (JObj [("version", v); ("team", team)])
            = Throw (ZodError [ {| code := invalid_literal; path := ["version"] |} ]))
      as ->.
    { unfold schema_result, version_issues.
      change (prop "version" [("version", v); ("team", team)]) with v.
      change (prop "team" [("version", v); ("team", team)]) with team.
      rewrite Hv.
      destruct Hteam as [-> | (t & -> & Ht)]; cbn; [done | by rewrite Ht]. }
    eexists. split; [done|].
    unfold add_logs. cbn [config_file]. apply config_file_ensure_dir.
  - intros Hv.
    rewrite (set_unfold _ _ _ _ _ _ Hr), obj_set_team, write_unfold. cbv zeta.
    assert (schema_result host (credentials w1) (config_doc v)
            = Throw (ZodError [ {| code := invalid_type; path := ["team"] |} ]))
      as ->.
    { by destruct v. }
    eexists. split; [done|].
    unfold add_logs. cbn [config_file]. apply config_file_ensure_dir.
Qed.

(** ** Clearing *)

(** [clear] never fails and never looks at the old file: whatever the file
    was (absent, corrupt, valid), the world after [clear] is the same, with
    the directory there and the file holding the default document.
    [set("team", null)] and [remove("team")] end with that same file. *)
Theorem clear_resets (w : World) :
  ∃ w', clear host w = (Return tt, w')
        ∧ config_file w' = Some (stored host (config_doc JNull))
        ∧ config_dir w' = true
        ∧ credentials w' = credentials w
        ∧ (∀ f, clear host (set_config_file f w) = (Return tt, w'))
        ∧ config_file (set host "team" JNull w).2 = config_file w'
        ∧ config_file (remove host "team" w).2 = config_file w'.
Proof.
  assert (∀ w0, clear host w0
                = (Return tt, written host (config_doc JNull) (ensure_dir host w0)))
    as Hclear.
  { intros w0. rewrite clear_unfold, write_unfold. cbn. by rewrite add_logs_nil. }
  rewrite Hclear. eexists. split; [done|].
  split; [done|].
  split; [cbn; apply config_dir_ensure_dir|].
  split; [cbn; apply credentials_ensure_dir|].
  split.
  { intros f. rewrite Hclear. f_equal.
    unfold written, ensure_dir. cbn. by destruct (config_dir w). }
  destruct (set_team_null w) as (w1 & -> & Hf1 & _).
  destruct (remove_team host w) as (w2 & -> & Hf2 & _).
  done.
Qed.

End StoreFacts.

(** * Further properties of the path enumerator *)

(** A field that is optional without being a wrapper ([z.any()],
    [z.unknown()], [z.undefined()]: [isOptional()] holds and there is no
    [_def.innerType]) makes [getKeys] throw: it evaluates
    ["shape" in undefined].  So does [paths_of]. *)
Theorem getKeys_throws_on_optional_leaf
    (shape : list (string * ZodType)) (key : string) (field : ZodType) :
  (key, field) ∈ shape →
  isOptional field = Return true →
  innerType_of field = None →
  ∃ e, getKeys (ZodObject shape) = Throw e
       ∧ paths_of (ZodObject shape) = Throw e.
Proof.
  intros Hin Ho Hi.
  assert (∃ e, getKeys (ZodObject shape) = Throw e) as [e He].
  { induction shape as [|[k f] rest IH]; [by apply elem_of_nil in Hin|].
    rewrite getKeys_cons.
    apply elem_of_cons in Hin as [[= <- <-] | Hin].
    - unfold field_keys. rewrite Ho, Hi. cbn. eauto.
    - destruct (IH Hin) as [e He]. rewrite He.
      destruct (field_keys k f); cbn; eauto. }
  exists e. split; [done|]. unfold paths_of. by rewrite He.
Qed.

(** Whatever the schema, every path that [getKeys] returns starts at a key
    of the shape: it is that key, or that key, a dot and more. *)
Theorem getKeys_paths_start_at_keys
    (shape : list (string * ZodType)) (ps : list string) (p : string) :
  getKeys (ZodObject shape) = Return ps →
  p ∈ ps →
  ∃ key field, (key, field) ∈ shape
               ∧ (p = key ∨ ∃ sub, p = key +:+ "." +:+ sub).
Proof.
  revert ps. induction shape as [|[k f] rest IH]; intros ps Hg Hp.
  { injection Hg as <-. by apply elem_of_nil in Hp. }
  rewrite getKeys_cons in Hg.
  destruct (field_keys k f) as [here|] eqn:Hk; [|discriminate].
  destruct (getKeys (ZodObject rest)) as [there|] eqn:Hrest; [|discriminate].
  cbn in Hg. injection Hg as <-.
  apply elem_of_app in Hp as [Hp | Hp].
  - exists k, f. split; [by left|].
    unfold field_keys in Hk.
    destruct (isOptional f) as [optional|]; [|discriminate]. cbn in Hk.
    assert ((if has_shape (if optional then unwrapped f else f)
             then map (λ subKey, k +:+ "." +:+ subKey)
                    <$> getKeys (if optional then unwrapped f else f)
             else Return [k]) = Return here) as Hk'.
    { destruct optional; [|done]. by destruct (innerType_of f). }
    destruct (has_shape _).
    + destruct (getKeys (if optional then unwrapped f else f)) as [subs|];
        [|discriminate].
      cbn in Hk'. injection Hk' as <-.
      apply list_elem_of_In, in_map_iff in Hp as (sub & <- & _). eauto.
    + injection Hk' as <-. apply list_elem_of_singleton in Hp. eauto.
  - destruct (IH there eq_refl Hp) as (key & field & Hin & Hshape).
    exists key, field. split; [by right | done].
Qed.

(** * Further properties of the resolver *)

Lemma flagged_other opt e name :
  name ≠ "DEBUG" → name ≠ "PAPERSPACE_API_KEY" → name ≠ "PAPERSPACE_API_URL" →
  flagged opt e !! name = e !! name.
Proof.
  intros H1 H2 H3. unfold flagged.
  destruct (debug opt), (truthy_str (apiKey opt)), (truthy_str (apiUrl opt));
    by rewrite ?lookup_insert_ne.
Qed.

Lemma flagged_url opt e :
  flagged opt e !! "PAPERSPACE_API_URL"
  = if truthy_str (apiUrl opt) then apiUrl opt
    else e !! "PAPERSPACE_API_URL".
Proof.
  unfold flagged.
  destruct (debug opt), (truthy_str (apiKey opt)), (apiUrl opt) as [u|]; cbn;
    try destruct (nonempty u); by simplify_map_eq.
Qed.

Lemma flagged_debug opt e :
  debug opt = None → flagged opt e !! "DEBUG" = e !! "DEBUG".
Proof.
  intros Hd. unfold flagged. rewrite Hd.
  destruct (truthy_str (apiKey opt)), (truthy_str (apiUrl opt));
    by rewrite ?lookup_insert_ne.
Qed.

(** [resolve] returns for every world and every option record, also with
    a store that is not well formed and with a corrupt config file.  It
    never changes the credential store, and of the environment it writes
    at most [DEBUG], [PAPERSPACE_API_KEY] and [PAPERSPACE_API_URL]: the
    URL becomes the [apiUrl] option when that is non-empty and stays
    otherwise, and [DEBUG] stays when the option is undefined. *)
Theorem resolve_frame (host : Host) (opt : Options) (w : World) :
  ∃ w', resolve host opt w = (Return tt, w')
        ∧ credentials w' = credentials w
        ∧ (∀ name, name ≠ "DEBUG" → name ≠ "PAPERSPACE_API_KEY" →
                   name ≠ "PAPERSPACE_API_URL" →
                   environ w' !! name = environ w !! name)
        ∧ environ w' !! "PAPERSPACE_API_URL"
          = (if truthy_str (apiUrl opt) then apiUrl opt
             else environ w !! "PAPERSPACE_API_URL")
        ∧ (debug opt = None → environ w' !! "DEBUG" = environ w !! "DEBUG").
Proof.
  destruct (read_total host w) as (d & w1 & Hr).
  destruct (read_valid _ _ _ _ Hr) as (team & -> & Hteam).
  pose proof (read_frame host w) as [Hc _]. rewrite Hr in Hc. cbn in Hc.
  rewrite (resolve_unfold host opt _ _ _ Hr Hteam). cbv zeta.
  assert (∀ w0, credentials w0 = credentials w →
            credentials (set_environ (flagged opt (environ w)) w0) = credentials w
            ∧ (∀ name, name ≠ "DEBUG" → name ≠ "PAPERSPACE_API_KEY" →
                       name ≠ "PAPERSPACE_API_URL" →
                       environ (set_environ (flagged opt (environ w)) w0) !! name
                       = environ w !! name)
            ∧ environ (set_environ (flagged opt (environ w)) w0)
                !! "PAPERSPACE_API_URL"
              = (if truthy_str (apiUrl opt) then apiUrl opt
                 else environ w !! "PAPERSPACE_API_URL")
            ∧ (debug opt = None →
               environ (set_environ (flagged opt (environ w)) w0) !! "DEBUG"
               = environ w !! "DEBUG")) as Hplain.
  { intros w0 Hw0. cbn. split; [done|].
    split; [intros; by apply flagged_other|].
    split; [apply flagged_url | apply flagged_debug]. }
  destruct (truthy_str (flagged opt (environ w) !! "PAPERSPACE_API_KEY")).
  { eexists. split; [done|]. by apply Hplain. }
  destruct team as [| | | |t| |]; try (eexists; split; [done|]; by apply Hplain).
  destruct (nonempty t); [|eexists; split; [done|]; by apply Hplain].
  eexists. split; [done|]. cbn. split; [done|].
  split; [|split].
  - intros name H1 H2 H3. rewrite lookup_insert_ne by done.
    by apply flagged_other.
  - rewrite lookup_insert_ne by done. apply flagged_url.
  - intros Hd. rewrite lookup_insert_ne by done. by apply flagged_debug.
Qed.

(** * Further properties: the commands of [cli.ts] *)

Lemma assoc_upsert team secret store :
  assoc team (upsert team secret store) = Some secret.
Proof.
  induction store as [|[k v] rest IH]; cbn; [by rewrite String.eqb_refl|].
  destruct (String.eqb k team) eqn:E; cbn; by rewrite E.
Qed.

Lemma assoc_upsert_ne t team secret store :
  t ≠ team → assoc t (upsert team secret store) = assoc t store.
Proof.
  intros Hne. induction store as [|[k v] rest IH]; cbn.
  - by destruct (String.eqb_spec team t).
  - destruct (String.eqb_spec k team) as [->|]; cbn.
    + by destruct (String.eqb_spec team t).
    + by rewrite IH.
Qed.

Lemma assoc_without team store : assoc team (without team store) = None.
Proof.
  induction store as [|[k v] rest IH]; cbn; [done|].
  destruct (String.eqb k team) eqn:E; cbn; by rewrite ?E.
Qed.

Lemma assoc_without_ne t team store :
  t ≠ team → assoc t (without team store) = assoc t store.
Proof.
  intros Hne. induction store as [|[k v] rest IH]; cbn; [done|].
  destruct (String.eqb_spec k team) as [->|]; cbn.
  - by destruct (String.eqb_spec team t).
  - by rewrite IH.
Qed.

Lemma bind_return {A B} (m : Eff A) (k : A → Eff B) w a w1 :
  m w = (Return a, w1) → (m ≫= k) w = k a w1.
Proof. intros H. unfold mbind, Eff_bind. by rewrite H. Qed.

Lemma bind_throw {A B} (m : Eff A) (k : A → Eff B) w e w1 :
  m w = (Throw e, w1) → (m ≫= k) w = (Throw e, w1).
Proof. intros H. unfold mbind, Eff_bind. by rewrite H. Qed.

Section CommandFacts.
Context (host : Host) (term : Terminal).

(** Validation looks at the store only through the team of the document. *)
Lemma schema_result_store store store' config team :
  schema_result host store config = Return (config_doc team) →
  (∀ t, team = JStr t →
        truthy_str (assoc t store') = truthy_str (assoc t store)) →
  schema_result host store' config = Return (config_doc team).
Proof.
  destruct config as [| | | | |?|o]; try discriminate.
  unfold schema_result, checked.
  destruct (or_default JNull (prop "team" o)) as [| | | |t| |]; try discriminate.
  - done.
  - destruct (truthy_str (assoc t store)) eqn:Ht; [|discriminate].
    destruct (version_issues _); [|discriminate].
    intros [= <-] Hs. by rewrite (Hs t eq_refl), Ht.
Qed.

(** [set("team", t)] for a team with a usable credential. *)
Lemma set_team_known w t :
  truthy_str (assoc t (credentials w)) = true →
  yaml_parse host (yaml_stringify host (config_doc (JStr t)))
  = Some (config_doc (JStr t)) →
  ∃ w', set host "team" (JStr t) w = (Return tt, w')
        ∧ config_file w' = Some (stored host (config_doc (JStr t)))
        ∧ credentials w' = credentials w
        ∧ environ w' = environ w
        ∧ read host w' = (Return (config_doc (JStr t)), w').
Proof.
  intros Ht Hy.
  assert (schema_result host (credentials w) (config_doc (JStr t))
          = Return (config_doc (JStr t))) as Hs
    by (apply schema_result_canonical; eauto).
  destruct (read_total host w) as (d & w1 & Hr).
  destruct (read_valid _ _ _ _ Hr) as (team & -> & _).
  pose proof (read_frame host w) as [Hc He]. rewrite Hr in Hc, He. cbn in Hc, He.
  rewrite (set_unfold _ _ _ _ _ _ Hr), obj_set_team, write_unfold. cbv zeta.
  rewrite Hc, Hs, (schema_result_ok _ _ _ _ Hs), add_logs_nil.
  eexists. split; [done|].
  assert (credentials (written host (config_doc (JStr t)) (ensure_dir host w1))
          = credentials w) as Hc'
    by (cbn; by rewrite credentials_ensure_dir).
  split; [done|]. split; [done|].
  split; [cbn; by rewrite environ_ensure_dir|].
  rewrite read_unfold. unfold written at 1. cbn [config_file set_config_file].
  unfold stored at 1. cbn [content]. by rewrite Hy, Hc', Hs.
Qed.

(** Once [read] has run, reading again gives the same document, also from
    a world that differs in its log or its environment. *)
Lemma read_stable w d w1 w' :
  yaml_parse host (yaml_stringify host (config_doc JNull))
  = Some (config_doc JNull) →
  read host w = (Return d, w1) →
  config_file w' = config_file w1 → credentials w' = credentials w →
  (read host w').1 = Return d ∧ config_file (read host w').2 = config_file w'.
Proof.
  intros Hy Hr Hf Hc. rewrite (read_unfold host w) in Hr.
  rewrite (read_unfold host w'), Hf, Hc.
  assert (∀ w0, config_file (recovered host w0)
                = Some (stored host (config_doc JNull))) as Hrec by done.
  destruct (config_file w) as [f|] eqn:Hfw.
  - destruct (yaml_parse host (content f)) as [config|] eqn:Hp.
    + destruct (schema_result host (credentials w) config) as [d'|] eqn:Hd.
      * injection Hr as <- <-. rewrite Hfw, Hp, Hd. cbn. split; congruence.
      * injection Hr as <- <-. rewrite Hrec. cbn [content stored].
        rewrite Hy. cbn. split; [done | by rewrite Hf].
    + injection Hr as <- <-. rewrite Hrec. cbn [content stored].
      rewrite Hy. cbn. split; [done | by rewrite Hf].
  - injection Hr as <- <-. cbn [config_file missing_warned add_log].
    rewrite Hfw. cbn. split; [done | by rewrite Hf].
Qed.

(** The closure of [login], from any world. *)
Lemma login_action_stores
    (viewer_team : string → option string) (typed : string)
    (given : option string) (w : World) (T : string) :
  let K := if truthy_str given then default EmptyString given else typed in
  viewer_team K = Some T → nonempty T = true → nonempty K = true →
  yaml_parse host (yaml_stringify host (config_doc (JStr T)))
  = Some (config_doc (JStr T)) →
  ∃ w', login_action host viewer_team typed given w
        = (Return ("Logged in to team " +:+ dq +:+ bold host T +:+ dq), w')
        ∧ assoc T (credentials w') = Some K
        ∧ (∀ t, t ≠ T → assoc t (credentials w') = assoc t (credentials w))
        ∧ config_file w' = Some (stored host (config_doc (JStr T)))
        ∧ environ w' = environ w
        ∧ ∀ opt e, truthy_str (apiKey opt) = false →
                   truthy_str (e !! "PAPERSPACE_API_KEY") = false →
                   ∃ w'', resolve host opt (set_environ e w') = (Return tt, w'')
                          ∧ effective w'' = Some K.
Proof.
  intros K Hv HT HK Hy. unfold login_action. fold K. clearbody K.
  rewrite Hv. cbn [truthy_str default from_option id]. rewrite HT.
  set (w0 := set_credentials (upsert T K (credentials w)) w).
  assert (truthy_str (assoc T (credentials w0)) = true) as Ht.
  { cbn. by rewrite assoc_upsert. }
  destruct (set_team_known w0 T Ht Hy) as (w' & Hs & Hf & Hc & He & Hr).
  rewrite (bind_return _ _ w tt w0) by done.
  rewrite (bind_return _ _ w0 tt w') by done.
  exists w'. split; [done|].
  rewrite Hc, He. cbn [credentials environ w0 set_credentials].
  split; [apply assoc_upsert|].
  split; [intros t Hne; by apply assoc_upsert_ne|].
  split; [done|]. split; [done|].
  intros opt e Ho Henv.
  assert (truthy_str (assoc T (credentials w')) = true) as Ht' by by rewrite Hc.
  assert (read host (set_environ e w')
          = (Return (config_doc (JStr T)), set_environ e w')) as Hr'
    by by rewrite read_set_environ, Hr.
  rewrite (resolve_unfold host opt _ (JStr T) _ Hr') by eauto.
  cbv zeta. rewrite flagged_key, Ho. cbn [environ credentials set_environ].
  rewrite Henv, HT, Hc. cbn [credentials w0 set_credentials].
  rewrite assoc_upsert. eexists. split; [done|].
  unfold effective. cbn [environ set_environ first_nonempty].
  rewrite lookup_insert_eq. cbn. by rewrite HK.
Qed.

(** What [read] leaves behind: no file, the default file, or the valid
    file that was there. *)
Lemma read_cases w :
  ∃ team w1,
    read host w = (Return (config_doc team), w1)
    ∧ credentials w1 = credentials w
    ∧ environ w1 = environ w
    ∧ (team = JNull
       ∨ ∃ t, team = JStr t ∧ truthy_str (assoc t (credentials w)) = true)
    ∧ (config_file w1 = None
       ∨ config_file w1 = Some (stored host (config_doc JNull))
       ∨ ∃ f config,
           config_file w1 = config_file w
           ∧ config_file w = Some f
           ∧ yaml_parse host (content f) = Some config
           ∧ schema_result host (credentials w) config
             = Return (config_doc team)).
Proof.
  destruct (read_total host w) as (d & w1 & Hr).
  destruct (read_valid _ _ _ _ Hr) as (team & -> & Hteam).
  pose proof (read_frame host w) as [Hc He]. rewrite Hr in Hc, He. cbn in Hc, He.
  exists team, w1. do 4 (split; [done|]).
  rewrite read_unfold in Hr.
  destruct (config_file w) as [f|] eqn:Hf.
  - destruct (yaml_parse host (content f)) as [config|] eqn:Hp.
    + destruct (schema_result host (credentials w) config) as [d|] eqn:Hd.
      * injection Hr as -> <-. right; right. by exists f, config.
      * injection Hr as _ <-. by right; left.
    + injection Hr as _ <-. by right; left.
  - injection Hr as _ <-. by left.
Qed.

(** A valid file stays valid when the store changes elsewhere. *)
Lemma file_valid_store w w' f config team :
  config_file w' = Some f →
  yaml_parse host (content f) = Some config →
  schema_result host (credentials w) config = Return (config_doc team) →
  (∀ t, team = JStr t →
        truthy_str (assoc t (credentials w')) = truthy_str (assoc t (credentials w))) →
  file_valid host w'.
Proof.
  intros Hf Hp Hd Hs. exists f, config, (config_doc team).
  split; [done|]. split; [done|].
  rewrite parseAsync_schema. cbn. by eapply schema_result_store.
Qed.

(** The closure of [logout], from any world. *)
Lemma logout_action_total (all : bool) (team : option string) (w : World) :
  ∃ message w',
    logout_action host all team w = (Return message, w')
    ∧ environ w' = environ w
    ∧ credentials w'
      = (if all then []
         else if truthy_str team
              then without (default EmptyString team) (credentials w)
              else match (get host "team" w).1 with
                   | Return (JStr current) =>
                       if nonempty current
                       then without current (credentials w)
                       else credentials w
                   | _ => credentials w
                   end)
    ∧ (config_file w' = None
       ∨ config_file w' = Some (stored host (config_doc JNull))
       ∨ config_file w' = config_file w ∧ file_valid host w').
Proof.
  unfold logout_action. destruct all.
  { destruct (set_team_null host w) as (w1 & Hs & Hf & Hc & He).
    rewrite (bind_return _ _ w tt w1) by done.
    eexists _, _. split; [reflexivity|]. cbn. by eauto. }
  destruct (read_cases w) as (current & w1 & Hr & Hc & He & Hcur & Hfile).
  pose proof (get_unfold host "team" _ _ _ Hr) as Hg. rewrite obj_get_team in Hg.
  rewrite (bind_return _ _ w current w1) by done. rewrite Hg. cbn [fst].
  destruct (set_team_null host w1) as (w2 & Hs & Hf2 & Hc2 & He2).
  destruct (truthy_str team) eqn:Hteam.
  - cbv zeta. set (T := default EmptyString team).
    destruct (strict_eq (JStr T) current) eqn:Heq.
    + rewrite (bind_return _ _ w1 tt w2) by done.
      eexists _, _. split; [reflexivity|]. cbn.
      rewrite He2, Hc2, He, Hc. by eauto.
    + eexists _, _. split; [reflexivity|]. cbn.
      split; [done|]. split; [by rewrite Hc|].
      destruct Hfile as [Hn | [Hd | (f & config & Hsame & Hf & Hp & Hd)]];
        [by left | by right; left |].
      right; right. split; [done|].
      eapply (file_valid_store w); [by rewrite <- Hf | done | done |].
      intros t ->. cbn. rewrite Hc.
      rewrite assoc_without_ne; [done|].
      intros ->. cbn in Heq. by rewrite String.eqb_refl in Heq.
  - destruct Hcur as [-> | (t & -> & Ht)]; cbn [truthy].
    + eexists _, _. split; [reflexivity|].
      split; [done|]. split; [done|].
      destruct Hfile as [Hn | [Hd | (f & config & Hsame & Hf & Hp & Hd)]];
        [by left | by right; left |].
      right; right. split; [done|].
      eapply (file_valid_store w); [by rewrite Hsame | done | done |].
      intros t _. by rewrite Hc.
    + destruct (nonempty t) eqn:Hne.
      * rewrite (bind_return _ _ w1 tt w2) by done.
        eexists _, _. split; [reflexivity|]. cbn.
        rewrite He2, Hc2, He, Hc. by eauto.
      * eexists _, _. split; [reflexivity|].
        split; [done|]. split; [done|].
        destruct Hfile as [Hn | [Hd | (f & config & Hsame & Hf & Hp & Hd)]];
          [by left | by right; left |].
        right; right. split; [done|].
        eapply (file_valid_store w); [by rewrite Hsame | done | done |].
        intros t' _. by rewrite Hc.
Qed.

Lemma try_catch_throw {A} (body : Eff A) (handler : Exception → Eff A) w e w1 :
  body w = (Throw e, w1) → try_catch body handler w = handler e w1.
Proof. intros H. unfold try_catch. by rewrite H. Qed.

Lemma try_catch_return {A} (body : Eff A) (handler : Exception → Eff A) w a w1 :
  body w = (Return a, w1) → try_catch body handler w = (Return a, w1).
Proof. intros H. unfold try_catch. by rewrite H. Qed.

(** The value that [config set] works with: the argument, or the answer
    to the prompt; asking changes nothing. *)
Lemma config_set_value (key typed : string) (value : option string) w :
  (if truthy_str value then mret (default EmptyString value)
   else _suggestions ← (if String.eqb key "team" then credentials_list
                         else mret []);
        mret typed) w
  = (Return (if truthy_str value then default EmptyString value else typed), w).
Proof. destruct (truthy_str value), (String.eqb key "team"); by run. Qed.

Lemma set_team_refused w t d w1 :
  truthy_str (assoc t (credentials w)) = false →
  read host w = (Return d, w1) →
  ∃ message w',
    set host "team" (JStr t) w = (Throw (ConfigError message), w')
    ∧ config_file w' = config_file w1
    ∧ credentials w' = credentials w
    ∧ environ w' = environ w.
Proof.
  intros Ht Hr.
  destruct (read_valid _ _ _ _ Hr) as (team & -> & _).
  pose proof (read_frame host w) as [Hc He]. rewrite Hr in Hc, He. cbn in Hc, He.
  rewrite (set_unfold _ _ _ _ _ _ Hr), obj_set_team, write_unfold. cbv zeta.
  rewrite Hc. unfold config_doc at 1.
  rewrite (unknown_team_result host _ _ t) by done.
  eexists _, _. split; [done|]. unfold add_logs. cbn.
  by rewrite config_file_ensure_dir, credentials_ensure_dir, environ_ensure_dir.
Qed.

(** [set("team", t)] ends in one of two ways, and changes neither the
    store nor the environment. *)
Lemma set_team_outcome w t :
  ∃ r w', set host "team" (JStr t) w = (r, w')
          ∧ credentials w' = credentials w
          ∧ environ w' = environ w
          ∧ (r = Return tt ∨ ∃ message, r = Throw (ConfigError message)).
Proof.
  destruct (read_total host w) as (d & w1 & Hr).
  destruct (read_valid _ _ _ _ Hr) as (team & -> & _).
  pose proof (read_frame host w) as [Hc He]. rewrite Hr in Hc, He. cbn in Hc, He.
  rewrite (set_unfold _ _ _ _ _ _ Hr), obj_set_team.
  pose proof (write_frame host (config_doc (JStr t)) w1) as (Hc' & He' & _).
  destruct (write host (config_doc (JStr t)) w1) as [r w'] eqn:Hw.
  cbn in Hc', He'. exists r, w'.
  split; [done|]. split; [congruence|]. split; [congruence|].
  rewrite write_unfold in Hw. cbv zeta in Hw.
  destruct (truthy_str (assoc t (credentials w1))) eqn:Ht.
  - rewrite (schema_result_canonical host (credentials w1) (JStr t)) in Hw
      by eauto.
    left. congruence.
  - unfold config_doc at 1 in Hw.
    rewrite (unknown_team_result host _ _ t) in Hw by done.
    injection Hw as <- _. right. by eexists.
Qed.

(** The closure of [config set], from any world. *)
Lemma config_set_action_total
    (picked typed : string) (key value : option string) (w : World) :
  enumerated host (if truthy_str key then default EmptyString key else picked) →
  ∃ v w',
    config_set_action host term picked typed key value w = (Return v, w')
    ∧ team_ok (credentials w) v
    ∧ credentials w' = credentials w
    ∧ environ w' = environ w.
Proof.
  intros Hkey%enumerated_team. unfold config_set_action. cbv zeta.
  rewrite Hkey.
  rewrite (bind_return _ _ w _ w (config_set_value "team" typed value w)).
  set (t := if truthy_str value then default EmptyString value else typed).
  destruct (set_team_outcome w t) as (r & w1 & Hs & Hc & He & Hcases).
  assert (try_catch (set host "team" (JStr t))
            (λ err,
              match err with
              | ZodError issues =>
                  match issues with
                  | first :: _ =>
                      mthrow (ConfigError
                                (warn term ("Invalid value for " +:+ dq +:+ "team"
                                            +:+ dq)
                                 +:+ nl +:+ issue_message term first))
                  | [] => mthrow TypeError
                  end
              | _ => mret tt
              end) w = (Return tt, w1)) as Htry.
  { destruct Hcases as [-> | [message ->]].
    - by rewrite (try_catch_return _ _ _ _ _ Hs).
    - by rewrite (try_catch_throw _ _ _ _ _ Hs). }
  rewrite (bind_return _ _ w tt w1 Htry).
  destruct (read_total host w1) as (d & w2 & Hr).
  destruct (read_valid _ _ _ _ Hr) as (team & -> & Hteam).
  pose proof (read_frame host w1) as [Hc2 He2].
  rewrite Hr in Hc2, He2. cbn in Hc2, He2.
  rewrite (bind_return _ _ w1 _ w2 (get_unfold host "team" _ _ _ Hr)).
  rewrite obj_get_team. exists team, w2. split; [done|].
  split; [apply truthy_team_ok; by rewrite <- Hc|].
  split; congruence.
Qed.

Lemma config_set_action_unknown
    (picked typed : string) (key value : option string) (w : World)
    (t : string) :
  enumerated host (if truthy_str key then default EmptyString key else picked) →
  (if truthy_str value then default EmptyString value else typed) = t →
  truthy_str (assoc t (credentials w)) = false →
  yaml_parse host (yaml_stringify host (config_doc JNull))
  = Some (config_doc JNull) →
  ∃ v w',
    config_set_action host term picked typed key value w = (Return v, w')
    ∧ (get host "team" w).1 = Return v
    ∧ config_file w' = config_file (read host w).2
    ∧ credentials w' = credentials w
    ∧ environ w' = environ w.
Proof.
  intros Hkey%enumerated_team Hvalue Ht Hy. unfold config_set_action. cbv zeta.
  rewrite Hkey.
  rewrite (bind_return _ _ w _ w (config_set_value "team" typed value w)), Hvalue.
  destruct (read_total host w) as (d & w1 & Hr).
  destruct (set_team_refused w t d w1 Ht Hr) as (m & w2 & Hs & Hf & Hc & He).
  rewrite (bind_return _ _ w tt w2)
    by by rewrite (try_catch_throw _ _ _ _ _ Hs).
  destruct (read_stable w d w1 w2 Hy Hr Hf Hc) as [Hd2 Hf2].
  destruct (read host w2) as [o w3] eqn:Hr2. cbn in Hd2, Hf2. subst o.
  pose proof (read_frame host w2) as [Hc3 He3].
  rewrite Hr2 in Hc3, He3. cbn in Hc3, He3.
  rewrite (bind_return _ _ w2 _ w3 (get_unfold host "team" _ _ _ Hr2)).
  eexists _, _. split; [reflexivity|].
  rewrite (get_unfold host "team" _ _ _ Hr), Hr. cbn.
  split; [done|]. split; [congruence|]. split; congruence.
Qed.

Lemma config_set_action_known
    (picked typed : string) (key value : option string) (w : World)
    (t : string) :
  enumerated host (if truthy_str key then default EmptyString key else picked) →
  (if truthy_str value then default EmptyString value else typed) = t →
  truthy_str (assoc t (credentials w)) = true →
  yaml_parse host (yaml_stringify host (config_doc (JStr t)))
  = Some (config_doc (JStr t)) →
  ∃ w',
    config_set_action host term picked typed key value w = (Return (JStr t), w')
    ∧ config_file w' = Some (stored host (config_doc (JStr t)))
    ∧ credentials w' = credentials w
    ∧ environ w' = environ w.
Proof.
  intros Hkey%enumerated_team Hvalue Ht Hy. unfold config_set_action. cbv zeta.
  rewrite Hkey.
  rewrite (bind_return _ _ w _ w (config_set_value "team" typed value w)), Hvalue.
  destruct (set_team_known w t Ht Hy) as (w1 & Hs & Hf & Hc & He & Hr).
  rewrite (bind_return _ _ w tt w1)
    by by rewrite (try_catch_return _ _ _ _ _ Hs).
  rewrite (bind_return _ _ w1 _ w1 (get_unfold host "team" _ _ _ Hr)).
  by exists w1.
Qed.

(** ** The commands as registered: [act] around the closure *)

Lemma resolve_prelude opt w :
  ∃ w0, resolve host opt w = (Return tt, w0)
        ∧ credentials w0 = credentials w
        ∧ (∀ name, name ≠ "DEBUG" → name ≠ "PAPERSPACE_API_KEY" →
                   name ≠ "PAPERSPACE_API_URL" →
                   environ w0 !! name = environ w !! name)
        ∧ ∃ e, w0 = set_environ e w ∨ w0 = set_environ e (read host w).2.
Proof.
  destruct (read_total host w) as (d & w1 & Hr).
  destruct (read_valid _ _ _ _ Hr) as (team & -> & Hteam).
  pose proof (read_frame host w) as [Hc _]. rewrite Hr in Hc. cbn in Hc.
  rewrite (resolve_unfold host opt _ _ _ Hr Hteam). cbv zeta.
  rewrite Hr. cbn [snd].
  assert (∀ name, name ≠ "DEBUG" → name ≠ "PAPERSPACE_API_KEY" →
                  name ≠ "PAPERSPACE_API_URL" →
                  flagged opt (environ w) !! name = environ w !! name) as Hother
    by (intros; by apply flagged_other).
  destruct (truthy_str (flagged opt (environ w) !! "PAPERSPACE_API_KEY")).
  { eexists. split; [done|]. split; [done|]. split; [done|]. eexists. by left. }
  assert (∃ w0, (Return tt, set_environ (flagged opt (environ w)) w1) = (Return tt, w0)
                ∧ credentials w0 = credentials w
                ∧ (∀ name, name ≠ "DEBUG" → name ≠ "PAPERSPACE_API_KEY" →
                           name ≠ "PAPERSPACE_API_URL" →
                           environ w0 !! name = environ w !! name)
                ∧ ∃ e, w0 = set_environ e w ∨ w0 = set_environ e w1) as Hplain.
  { eexists. split; [done|]. split; [done|]. split; [done|]. eexists. by right. }
  destruct team as [| | | |t| |]; try exact Hplain.
  destruct (nonempty t); [|exact Hplain].
  eexists. split; [done|]. split; [done|]. split; [|eexists; by right].
  intros name H1 H2 H3. cbn. rewrite lookup_insert_ne by done. by apply Hother.
Qed.

Lemma act_unfold {A} (fn : Options → Eff A) opt w w0 :
  resolve host opt w = (Return tt, w0) → act host fn opt w = fn opt w0.
Proof. intros H. unfold act. by rewrite (bind_return _ _ w tt w0 H). Qed.

(** The closure reads what the command line found: given that the YAML
    codec gives the default document back, the [read] after the prelude
    returns what a [read] before it returns. *)
Lemma read_after_prelude w e w0 :
  yaml_parse host (yaml_stringify host (config_doc JNull))
  = Some (config_doc JNull) →
  w0 = set_environ e w ∨ w0 = set_environ e (read host w).2 →
  (read host w0).1 = (read host w).1
  ∧ config_file (read host w0).2 = config_file (read host w).2.
Proof.
  intros Hy [-> | ->]; rewrite read_set_environ; cbn [fst snd]; [done|].
  destruct (read_total host w) as (d & w1 & Hr).
  pose proof (read_frame host w) as [Hc _]. rewrite Hr in Hc. cbn in Hc.
  rewrite Hr. cbn [fst snd].
  destruct (read_stable w d w1 w1 Hy Hr eq_refl Hc) as [H1 H2].
  split; [done|]. cbn. by rewrite H2.
Qed.

Lemma get_read p w w' :
  (read host w').1 = (read host w).1 → (get host p w').1 = (get host p w).1.
Proof.
  destruct (read_total host w) as (d & w1 & Hr).
  destruct (read_total host w') as (d' & w1' & Hr').
  rewrite (get_unfold host p _ _ _ Hr), (get_unfold host p _ _ _ Hr'), Hr, Hr'.
  cbn. congruence.
Qed.

(** The command [login] with a key that the API accepts for the team [T]:
    after the credential resolution of [act] and the closure, the key is
    stored for [T] (replacing an older one; the other teams keep theirs)
    and the config file names [T].  The environment is what the resolution
    left, so that at most [DEBUG], [PAPERSPACE_API_KEY] and
    [PAPERSPACE_API_URL] differ from before.  A later invocation, whatever
    its environment [e], that has neither an [--api-key] option nor a
    non-empty [PAPERSPACE_API_KEY] ends its resolution with that key as
    the effective credential.  [K] is the key in use: the argument, or
    what was typed at the prompt when the argument is missing. *)
Theorem login_stores_key_and_team
    (viewer_team : string → option string) (typed : string)
    (given : option string) (opt : Options) (w : World) (T : string) :
  let K := if truthy_str given then default EmptyString given else typed in
  viewer_team K = Some T → nonempty T = true → nonempty K = true →
  yaml_parse host (yaml_stringify host (config_doc (JStr T)))
  = Some (config_doc (JStr T)) →
  ∃ w', login_command host viewer_team typed given opt w
        = (Return ("Logged in to team " +:+ dq +:+ bold host T +:+ dq), w')
        ∧ assoc T (credentials w') = Some K
        ∧ (∀ t, t ≠ T → assoc t (credentials w') = assoc t (credentials w))
        ∧ config_file w' = Some (stored host (config_doc (JStr T)))
        ∧ environ w' = environ (resolve host opt w).2
        ∧ (∀ name, name ≠ "DEBUG" → name ≠ "PAPERSPACE_API_KEY" →
                   name ≠ "PAPERSPACE_API_URL" →
                   environ w' !! name = environ w !! name)
        ∧ ∀ opt' e, truthy_str (apiKey opt') = false →
                    truthy_str (e !! "PAPERSPACE_API_KEY") = false →
                    ∃ w'', resolve host opt' (set_environ e w') = (Return tt, w'')
                           ∧ effective w'' = Some K.
Proof.
  intros K Hv HT HK Hy.
  destruct (resolve_prelude opt w) as (w0 & Hres & Hc0 & Hframe & _).
  destruct (login_action_stores viewer_team typed given w0 T Hv HT HK Hy)
    as (w' & Ha & Hk & Hothers & Hf & He & Hnext).
  exists w'. unfold login_command. rewrite (act_unfold _ _ _ _ Hres), Hres.
  cbn [snd]. split; [done|]. split; [done|].
  split; [intros t Hne; rewrite <- Hc0; by apply Hothers|].
  split; [done|]. split; [done|].
  split; [intros name H1 H2 H3; rewrite He; by apply Hframe | done].
Qed.

(** The command [logout] never fails, whatever the options, the file and
    the store.  The environment is what the credential resolution of
    [act] left (at most [DEBUG], [PAPERSPACE_API_KEY] and
    [PAPERSPACE_API_URL] differ from before): the closure adds nothing.
    The store is emptied under [--all]; with a team argument that team's
    entries are removed; otherwise the entries of the current team are
    removed when the closure's [get("team")] returns a non-empty team, and
    nothing else.  The config file it leaves never names a team without
    credential: there is no file, or the file holds the default document,
    or it is the file as it was and it passes the schema with the store
    as [logout] left it. *)
Theorem logout_never_fails
    (all : bool) (team : option string) (opt : Options) (w : World) :
  ∃ message w',
    logout_command host all team opt w = (Return message, w')
    ∧ environ w' = environ (resolve host opt w).2
    ∧ (∀ name, name ≠ "DEBUG" → name ≠ "PAPERSPACE_API_KEY" →
               name ≠ "PAPERSPACE_API_URL" →
               environ w' !! name = environ w !! name)
    ∧ credentials w'
      = (if all then []
         else if truthy_str team
              then without (default EmptyString team) (credentials w)
              else match (get host "team" (resolve host opt w).2).1 with
                   | Return (JStr current) =>
                       if nonempty current
                       then without current (credentials w)
                       else credentials w
                   | _ => credentials w
                   end)
    ∧ (config_file w' = None
       ∨ config_file w' = Some (stored host (config_doc JNull))
       ∨ config_file w' = config_file w ∧ file_valid host w').
Proof.
  destruct (resolve_prelude opt w) as (w0 & Hres & Hc0 & Hframe & e & Hshape).
  destruct (logout_action_total all team w0) as (message & w' & Ha & He & Hc & Hfile).
  exists message, w'. unfold logout_command.
  rewrite (act_unfold _ _ _ _ Hres), Hres. cbn [snd].
  split; [done|]. split; [done|].
  split; [intros name H1 H2 H3; rewrite He; by apply Hframe|].
  split; [by rewrite <- Hc0|].
  destruct Hfile as [Hn | [Hd | [Hsame Hvalid]]]; [by left | by right; left |].
  destruct Hshape as [-> | ->]; [by right; right|].
  destruct (read_cases w) as (current & w1 & Hr & _ & _ & _ & Hcases).
  rewrite Hr in Hsame. cbn in Hsame.
  destruct Hcases as [Hn | [Hd | (f & config & Hw1 & _)]].
  - left. congruence.
  - right; left. congruence.
  - right; right. split; [congruence | done].
Qed.

(** The command [config set] does not fail for a key it accepts (the keys
    of [paths]), whatever the options, the file and the store: the prelude
    of [act] never throws; in the closure a value without credential makes
    [set] throw a [ConfigError], which the handler drops, and a string
    value never makes the schema raise a [ZodError], so that the branch
    that rethrows is never taken.  The answer is a validated team, the
    store does not change, and the environment is what the credential
    resolution left (at most [DEBUG], [PAPERSPACE_API_KEY] and
    [PAPERSPACE_API_URL] differ from before).  The key and the value are
    the arguments, or the answers to the prompts. *)
Theorem config_set_never_fails
    (picked typed : string) (key value : option string) (opt : Options)
    (w : World) :
  enumerated host (if truthy_str key then default EmptyString key else picked) →
  ∃ v w',
    config_set_command host term picked typed key value opt w = (Return v, w')
    ∧ team_ok (credentials w) v
    ∧ credentials w' = credentials w
    ∧ environ w' = environ (resolve host opt w).2
    ∧ (∀ name, name ≠ "DEBUG" → name ≠ "PAPERSPACE_API_KEY" →
               name ≠ "PAPERSPACE_API_URL" →
               environ w' !! name = environ w !! name).
Proof.
  intros Hkey.
  destruct (resolve_prelude opt w) as (w0 & Hres & Hc0 & Hframe & _).
  destruct (config_set_action_total picked typed key value w0 Hkey)
    as (v & w' & Ha & Hv & Hc & He).
  exists v, w'. unfold config_set_command.
  rewrite (act_unfold _ _ _ _ Hres), Hres. cbn [snd].
  split; [done|]. split; [by rewrite <- Hc0|]. split; [congruence|].
  split; [done|]. intros name H1 H2 H3. rewrite He. by apply Hframe.
Qed.

(** The command [config set team t] for a team [t] without a usable
    credential (the YAML codec giving the default document back) reports
    no error: it answers with the team that [get("team")] returns before
    the command, and has written nothing, the file being as a [read]
    before the command leaves it.  The store does not change, and the
    environment is what the credential resolution of [act] left. *)
Theorem config_set_unknown_team_keeps_old_team
    (picked typed : string) (key value : option string) (opt : Options)
    (w : World) (t : string) :
  enumerated host (if truthy_str key then default EmptyString key else picked) →
  (if truthy_str value then default EmptyString value else typed) = t →
  truthy_str (assoc t (credentials w)) = false →
  yaml_parse host (yaml_stringify host (config_doc JNull))
  = Some (config_doc JNull) →
  ∃ v w',
    config_set_command host term picked typed key value opt w = (Return v, w')
    ∧ (get host "team" w).1 = Return v
    ∧ config_file w' = config_file (read host w).2
    ∧ credentials w' = credentials w
    ∧ environ w' = environ (resolve host opt w).2
    ∧ (∀ name, name ≠ "DEBUG" → name ≠ "PAPERSPACE_API_KEY" →
               name ≠ "PAPERSPACE_API_URL" →
               environ w' !! name = environ w !! name).
Proof.
  intros Hkey Hvalue Ht Hy.
  destruct (resolve_prelude opt w) as (w0 & Hres & Hc0 & Hframe & e & Hshape).
  rewrite <- Hc0 in Ht.
  destruct (config_set_action_unknown picked typed key value w0 t Hkey Hvalue Ht Hy)
    as (v & w' & Ha & Hg & Hf & Hc & He).
  destruct (read_after_prelude w e w0 Hy Hshape) as [Hread Hfile].
  exists v, w'. unfold config_set_command.
  rewrite (act_unfold _ _ _ _ Hres), Hres. cbn [snd].
  split; [done|].
  split; [by rewrite <- (get_read "team" w w0 Hread)|].
  split; [congruence|]. split; [congruence|].
  split; [done|]. intros name H1 H2 H3. rewrite He. by apply Hframe.
Qed.

(** The command [config set team t] for a team [t] with a usable
    credential (the YAML codec giving the document of [t] back) answers
    with [t], read back from the file it has just written.  The store
    does not change, and the environment is what the credential
    resolution of [act] left. *)
Theorem config_set_known_team
    (picked typed : string) (key value : option string) (opt : Options)
    (w : World) (t : string) :
  enumerated host (if truthy_str key then default EmptyString key else picked) →
  (if truthy_str value then default EmptyString value else typed) = t →
  truthy_str (assoc t (credentials w)) = true →
  yaml_parse host (yaml_stringify host (config_doc (JStr t)))
  = Some (config_doc (JStr t)) →
  ∃ w',
    config_set_command host term picked typed key value opt w
    = (Return (JStr t), w')
    ∧ config_file w' = Some (stored host (config_doc (JStr t)))
    ∧ credentials w' = credentials w
    ∧ environ w' = environ (resolve host opt w).2
    ∧ (∀ name, name ≠ "DEBUG" → name ≠ "PAPERSPACE_API_KEY" →
               name ≠ "PAPERSPACE_API_URL" →
               environ w' !! name = environ w !! name).
Proof.
  intros Hkey Hvalue Ht Hy.
  destruct (resolve_prelude opt w) as (w0 & Hres & Hc0 & Hframe & _).
  rewrite <- Hc0 in Ht.
  destruct (config_set_action_known picked typed key value w0 t Hkey Hvalue Ht Hy)
    as (w' & Ha & Hf & Hc & He).
  exists w'. unfold config_set_command.
  rewrite (act_unfold _ _ _ _ Hres), Hres. cbn [snd].
  split; [done|]. split; [done|]. split; [congruence|].
  split; [done|]. intros name H1 H2 H3. rewrite He. by apply Hframe.
Qed.

End CommandFacts.

(** * Further properties, on the examples *)

Lemma write_valid_stores_document_witness :
  ∃ w', write example_host (JObj [("team", JStr "acme"); ("theme", JStr "dark")])
          fresh_world = (Return tt, w')
        ∧ config_file w' = Some (stored example_host (config_doc (JStr "acme")))
        ∧ config_dir fresh_world = false
        ∧ config_dir w' = true.
Proof.
  destruct (write_valid_stores_document example_host fresh_world
              (JObj [("team", JStr "acme"); ("theme", JStr "dark")])
              (config_doc (JStr "acme")) eq_refl)
    as (w' & Hw & Hf & _ & _ & Hd & _).
  exists w'. split; [exact Hw|]. split; [exact Hf|]. split; [reflexivity|].
  exact Hd.
Defined.

Lemma schema_reads_version_and_team_only_witness :
  parseAsync (schema example_host)
    (JObj [("theme", JStr "dark"); ("team", JStr "acme")]) fresh_world
  = parseAsync (schema example_host) (JObj [("team", JStr "acme")]) fresh_world
  ∧ write example_host
      (JObj [("theme", JStr "dark"); ("team", JStr "acme")]) fresh_world
    = write example_host (JObj [("team", JStr "acme")]) fresh_world.
Proof.
  apply (schema_reads_version_and_team_only example_host
           [("theme", JStr "dark"); ("team", JStr "acme")]
           [("team", JStr "acme")] fresh_world); reflexivity.
Defined.

Lemma validated_document_revalidates_witness :
  parseAsync (schema example_host) (config_doc (JStr "acme")) fresh_world
  = (Return (config_doc (JStr "acme")), fresh_world).
Proof.
  apply (validated_document_revalidates example_host fresh_world
           (JObj [("team", JStr "acme"); ("theme", JStr "dark")])).
  reflexivity.
Defined.

Lemma acme_file_valid : file_valid example_host (acme_world []).
Proof.
  exists {| content := team_text "acme"; mode := 384 |},
    (config_doc (JStr "acme")), (config_doc (JStr "acme")).
  repeat split; reflexivity.
Defined.

Lemma read_valid_file_changes_nothing_witness :
  ∃ d, read example_host (acme_world []) = (Return d, acme_world [])
       ∧ get example_host "team" (acme_world [])
         = (Return (obj_get d "team"), acme_world []).
Proof.
  destruct (read_valid_file_changes_nothing example_host (acme_world [])
              acme_file_valid) as (d & Hr & _ & Hg).
  exists d. split; [exact Hr | apply Hg].
Defined.

Lemma read_twice_witness :
  ∃ d w1 w2, read example_host corrupt_world = (Return d, w1)
             ∧ read example_host w1 = (Return d, w2)
             ∧ config_file w2 = config_file w1.
Proof. apply (read_twice example_host corrupt_world). reflexivity. Defined.

Lemma set_unknown_team_keeps_config_witness :
  ∃ message w',
    set example_host "team" (JStr "ghost") (acme_world [])
    = (Throw (ConfigError message), w')
    ∧ config_file w' = config_file (acme_world [])
    ∧ (get example_host "team" w').1
      = (get example_host "team" (acme_world [])).1.
Proof.
  destruct (set_unknown_team_keeps_config example_host (acme_world []) "ghost"
              eq_refl) as (message & w' & Hs & _ & _ & _ & _ & Hv).
  exists message, w'. split; [exact Hs|]. apply Hv, acme_file_valid.
Defined.

Lemma set_rejects_ill_typed_values_witness :
  (∃ w', set example_host "version" (JNum 2) (acme_world [])
         = (Throw (ZodError [ {| code := invalid_literal; path := ["version"] |} ]),
            w')
         ∧ config_file w' = config_file (read example_host (acme_world [])).2)
  ∧ (∃ w', set example_host "team" (JNum 2) (acme_world [])
           = (Throw (ZodError [ {| code := invalid_type; path := ["team"] |} ]),
              w')
           ∧ config_file w' = config_file (read example_host (acme_world [])).2).
Proof.
  destruct (set_rejects_ill_typed_values example_host (acme_world []) (JNum 2))
    as [Hversion Hteam].
  split; [apply Hversion; reflexivity | apply Hteam; exact I].
Defined.

Lemma getKeys_throws_on_optional_leaf_witness :
  ∃ e, getKeys (ZodObject any_shape) = Throw e
       ∧ paths_of (ZodObject any_shape) = Throw e.
Proof.
  apply (getKeys_throws_on_optional_leaf any_shape "payload" ZodAny);
    [ repeat constructor | reflexivity | reflexivity ].
Defined.

Lemma getKeys_paths_start_at_keys_witness :
  ∃ key field, (key, field) ∈ display_shape
               ∧ ("display.color" = key
                  ∨ ∃ sub, "display.color" = key +:+ "." +:+ sub).
Proof.
  apply (getKeys_paths_start_at_keys display_shape ["team"; "display.color"]);
    [ reflexivity | repeat constructor ].
Defined.

Lemma login_stores_key_and_team_witness :
  ∃ w', login_command example_host example_viewer "K9" None no_options
          (acme_world [])
        = (Return ("Logged in to team " +:+ dq +:+ bold example_host "gamma"
                   +:+ dq), w')
        ∧ assoc "gamma" (credentials w') = Some "K9"
        ∧ config_file w' = Some (stored example_host (config_doc (JStr "gamma")))
        ∧ environ w' = environ (resolve example_host no_options (acme_world [])).2
        ∧ ∃ w'', resolve example_host no_options (set_environ ∅ w')
                 = (Return tt, w'')
                 ∧ effective w'' = Some "K9".
Proof.
  destruct (login_stores_key_and_team example_host example_viewer "K9" None
              no_options (acme_world []) "gamma" eq_refl eq_refl eq_refl eq_refl)
    as (w' & Ha & Hk & _ & Hf & He & _ & Hr).
  exists w'. split; [exact Ha|]. split; [exact Hk|]. split; [exact Hf|].
  split; [exact He|]. apply Hr; reflexivity.
Defined.

Lemma team_enumerated : enumerated example_host "team".
Proof. exists ["team"]. split; [reflexivity | repeat constructor]. Defined.

Lemma config_set_unknown_team_keeps_old_team_witness :
  ∃ w', config_set_command example_host example_terminal "team" "ghost" None None
          no_options (acme_world [])
        = (Return (JStr "acme"), w')
        ∧ config_file w' = config_file (acme_world []).
Proof.
  destruct (config_set_unknown_team_keeps_old_team example_host example_terminal
              "team" "ghost" None None no_options (acme_world []) "ghost"
              team_enumerated eq_refl eq_refl eq_refl)
    as (v & w' & Ha & Hg & Hf & _).
  exists w'. split; [|exact Hf].
  injection Hg as <-. exact Ha.
Defined.

Lemma config_set_known_team_witness :
  ∃ w', config_set_command example_host example_terminal "version" ""
          (Some "team") (Some "beta") no_options (acme_world [])
        = (Return (JStr "beta"), w')
        ∧ config_file w' = Some (stored example_host (config_doc (JStr "beta"))).
Proof.
  destruct (config_set_known_team example_host example_terminal "version" ""
              (Some "team") (Some "beta") no_options (acme_world []) "beta"
              team_enumerated eq_refl eq_refl eq_refl)
    as (w' & Ha & Hf & _).
  exists w'. split; [exact Ha | exact Hf].
Defined.

Lemma config_set_never_fails_witness :
  ∃ v w', config_set_command example_host example_terminal "team" "ghost"
            None None no_options corrupt_world = (Return v, w')
          ∧ credentials w' = credentials corrupt_world.
Proof.
  destruct (config_set_never_fails example_host example_terminal "team" "ghost"
              None None no_options corrupt_world team_enumerated)
    as (v & w' & Ha & _ & Hc & _).
  exists v, w'. split; [exact Ha | exact Hc].
Defined.
